(** * chromecast-api: discovery client (lib/client.js)

    A shallow embedding of [lib/client.js]: the identifier normalizer
    [parseUUID], the mDNS answer handler [onEachAnswer], the SSDP response
    handler of [querySSDP], the registry reconciliation [_updateDevice],
    the garbage-collection timer callback of the constructor, and the
    sockets and timers the constructor installs with the methods
    [update] and [destroy] that act on them.

    JavaScript objects used as dictionaries ([this._devices], the options
    object, decoded TXT data) are finite maps with string keys; the public
    array [this.devices] is a list.  Field values are [undefined], [null]
    or strings, compared with [!=] and tested for truthiness as the code
    does.  The clock ([Date.now]) is an explicit input of every callback,
    and emitted events and [close] calls are appended to a log carried by
    the client state.  A callback that throws ([toLowerCase] or [replace]
    of a value that is no string) keeps the state it reached.

    The [Device] class ([lib/device.js]) is outside this file's sources:
    its constructor is taken to store its options, and how it fills the
    property [last_seen], which the collector reads while [_updateDevice]
    writes [lastSeen], is a parameter of the development. *)

From stdpp Require Import gmap strings list fin_maps.
From Stdlib Require Import ZArith Ascii String.

Local Open Scope string_scope.
Local Open Scope nat_scope.

(** ** JavaScript values held in fragment and device fields *)

Module Js.

(** The values that reach the fields this file is about: [undefined],
    [null] and strings. *)
Inductive val : Type :=
| Undefined
| Null
| Str (s : string).

#[global] Instance val_eq_dec : EqDecision val.
Proof. solve_decision. Defined.

(** ToBoolean: the empty string, [null] and [undefined] are falsy. *)
Definition truthy (v : val) : bool :=
  match v with
  | Str s => negb (String.eqb s "")
  | _ => false
  end.

(** [a == b] (loose equality) on these values: [null == undefined]. *)
Definition loose_eq (a b : val) : bool :=
  match a, b with
  | Str s, Str t => String.eqb s t
  | Str _, _ | _, Str _ => false
  | _, _ => true
  end.

(** [a != b]. *)
Definition loose_ne (a b : val) : bool := negb (loose_eq a b).

(** ToPropertyKey, for [obj[v]]. *)
Definition to_key (v : val) : string :=
  match v with
  | Undefined => "undefined"
  | Null => "null"
  | Str s => s
  end.

(** A property that may be absent from a parsed document. *)
Definition of_option (o : option string) : val :=
  match o with
  | Some s => Str s
  | None => Undefined
  end.

End Js.

(** ** Strings and the two regular expressions *)

Module Re.

(** One position of a pattern: a character of the class [[0-9a-f]] under
    the [i] flag, or a literal character. *)
Inductive atom : Type :=
| Hex
| Lit (c : ascii).

Definition is_hex (c : ascii) : bool :=
  let n := nat_of_ascii c in
  ((48 <=? n)%nat && (n <=? 57)%nat) || ((97 <=? n)%nat && (n <=? 102)%nat)
  || ((65 <=? n)%nat && (n <=? 70)%nat).

Definition atom_matches (a : atom) (c : ascii) : bool :=
  match a with
  | Hex => is_hex c
  | Lit l => Ascii.eqb l c
  end.

(** The pattern matched at the start of [s]: the matched text. *)
Fixpoint match_here (p : list atom) (s : string) : option string :=
  match p with
  | [] => Some ""
  | a :: p' =>
      match s with
      | EmptyString => None
      | String c s' =>
          if atom_matches a c
          then String c <$> match_here p' s'
          else None
      end
  end.

(** [s.match(re)] for a non-global expression: [matches[0]] of the
    leftmost match, [None] for [null]. *)
Fixpoint exec (p : list atom) (s : string) : option string :=
  match match_here p s with
  | Some m => Some m
  | None =>
      match s with
      | EmptyString => None
      | String _ s' => exec p s'
      end
  end.

Definition hexes (n : nat) : list atom := replicate n Hex.

(** [/[0-9a-f]{8}-[0-9a-f]{4}-[0-9a-f]{4}-[0-9a-f]{4}-[0-9a-f]{12}/i] *)
Definition UUID_REGEX : list atom :=
  hexes 8 ++ [Lit "-"%char] ++ hexes 4 ++ [Lit "-"%char] ++ hexes 4
  ++ [Lit "-"%char] ++ hexes 4 ++ [Lit "-"%char] ++ hexes 12.

(** [/[0-9a-f]{32}/i] *)
Definition UUID_REGEX_NO_HYPENS : list atom := hexes 32.

(** [s.replace('-', '')]: a string pattern replaces the first occurrence
    only. *)
Fixpoint replace_first_hyphen (s : string) : string :=
  match s with
  | EmptyString => EmptyString
  | String c s' =>
      if Ascii.eqb c "-"%char then s' else String c (replace_first_hyphen s')
  end.

(** [s.replace(/-/g, '')] *)
Fixpoint remove_hyphens (s : string) : string :=
  match s with
  | EmptyString => EmptyString
  | String c s' =>
      if Ascii.eqb c "-"%char then remove_hyphens s'
      else String c (remove_hyphens s')
  end.

(** [s.replace(/uuid:/g, '')]: every occurrence, scanning left to right
    and resuming after each match. *)
Fixpoint remove_uuid_colon (s : string) : string :=
  match s with
  | String "u" (String "u" (String "i" (String "d" (String ":" s')))) =>
      remove_uuid_colon s'
  | String c s' => String c (remove_uuid_colon s')
  | EmptyString => EmptyString
  end.

(** All characters of [s] are hexadecimal digits. *)
Fixpoint all_hex (s : string) : bool :=
  match s with
  | EmptyString => true
  | String c s' => is_hex c && all_hex s'
  end.

(** [s] has no uppercase letter. *)
Fixpoint is_lower (s : string) : bool :=
  match s with
  | EmptyString => true
  | String c s' =>
      let n := nat_of_ascii c in
      negb ((65 <=? n)%nat && (n <=? 90)%nat) && is_lower s'
  end.

End Re.

(** ** The identifier normalizer *)

(** [parseUUID(data)] *)
Definition parseUUID (data : string) : string :=
  let uuid : option string :=
    match Re.exec Re.UUID_REGEX data with
    | Some m => Some (Re.replace_first_hyphen m)
    | None => None
    end in
  let uuid : option string :=
    match uuid with
    | Some u => Some u
    | None =>
        match Re.exec Re.UUID_REGEX_NO_HYPENS data with
        | Some m => Some m
        | None => None
        end
    end in
  match uuid with
  | Some u => u
  | None => data
  end.

(** ** Data model *)

(** A staged fragment: one value of [this._devices]. *)
Module Fragment.
Record t : Type := mk {
  friendlyName : Js.val;
  host : Js.val;
  uuid : Js.val;
  discoveryName : Js.val;
  manufacturer : Js.val;
  modelName : Js.val
}.

Definition set_friendlyName (v : Js.val) (f : t) : t :=
  mk v (host f) (uuid f) (discoveryName f) (manufacturer f) (modelName f).
Definition set_host (v : Js.val) (f : t) : t :=
  mk (friendlyName f) v (uuid f) (discoveryName f) (manufacturer f) (modelName f).
Definition set_discoveryName (v : Js.val) (f : t) : t :=
  mk (friendlyName f) (host f) (uuid f) v (manufacturer f) (modelName f).
Definition set_manufacturer (v : Js.val) (f : t) : t :=
  mk (friendlyName f) (host f) (uuid f) (discoveryName f) v (modelName f).
Definition set_modelName (v : Js.val) (f : t) : t :=
  mk (friendlyName f) (host f) (uuid f) (discoveryName f) (manufacturer f) v.

(** [f.host && f.friendlyName], as a condition. *)
Definition announceable (f : t) : bool :=
  Js.truthy (host f) && Js.truthy (friendlyName f).

#[global] Instance eq_dec : EqDecision t.
Proof. solve_decision. Defined.
End Fragment.

(** A device record: one element of [this.devices]. *)
Module Device.
(** The properties of a [Device] object that [lib/client.js] reads or
    writes.  [_updateDevice] writes [lastSeen]; the garbage collector
    reads [last_seen] ([None] is [undefined]). *)
Record t : Type := mk {
  uuid : string;
  name : Js.val;
  friendlyName : Js.val;
  host : Js.val;
  manufacturer : Js.val;
  modelName : Js.val;
  lastSeen : Z;
  last_seen : option Z
}.

#[global] Instance eq_dec : EqDecision t.
Proof. solve_decision. Defined.
End Device.

(** The [device] element of a parsed description document
    ([result.device] after [xml2js]): each child element is a string when
    the document has it and [undefined] otherwise. *)
Module Dial.
Record t : Type := mk {
  deviceType : option string;
  friendlyName : option string;
  manufacturer : option string;
  modelName : option string;
  UDN : option string
}.
End Dial.

Definition SSDP_DEVICE_TYPE : string := "urn:dial-multiscreen-org:device:dial:1".

(** The names under which the client emits. *)
Inductive event_name : Type :=
| device
| device_online
| device_updated
| device_offline.

#[global] Instance event_name_eq_dec : EqDecision event_name.
Proof. solve_decision. Defined.

(** What the outside sees of a callback: [this.emit(name, d)] and
    [d.close()], each with the record as it is at that moment. *)
Inductive effect : Type :=
| Emit (e : event_name) (d : Device.t)
| Close (d : Device.t).

#[global] Instance effect_eq_dec : EqDecision effect.
Proof. solve_decision. Defined.

(** The mutable state of a [Client]: the staging table, the public
    registry, and the effects so far (oldest first). *)
Record Client : Type := mkClient {
  _devices : gmap string Fragment.t;
  devices : list Device.t;
  log : list effect
}.

(** A callback either returns or throws; both leave a state behind. *)
Inductive completion : Type :=
| Normal (c : Client)
| Throw (c : Client).

Definition state_of (r : completion) : Client :=
  match r with
  | Normal c | Throw c => c
  end.

(** ** Options and configuration *)

(** Values of the [options] object. *)
Inductive optval : Type :=
| OStr (s : string)
| ONum (z : Z)
| OBool (b : bool).

Definition opt_truthy (v : optval) : bool :=
  match v with
  | OStr s => negb (String.eqb s "")
  | ONum z => negb (z =? 0)%Z
  | OBool b => b
  end.

(** [options.key || dflt] *)
Definition opt_or (o : option optval) (dflt : optval) : optval :=
  match o with
  | Some v => if opt_truthy v then v else dflt
  | None => dflt
  end.

(** ToNumber for the numeric options: a number, or a boolean as 0 or 1.
    A string there is not modelled and counts as [NaN]. *)
Definition opt_number (o : option optval) : option Z :=
  match o with
  | Some (ONum z) => Some z
  | Some (OBool b) => Some (if b then 1 else 0)%Z
  | _ => None
  end.

(** [x > y] where [x] is a number and [y] an option read as a number:
    false when [y] is [NaN]. *)
Definition num_gt_opt (x : Z) (o : option optval) : bool :=
  match opt_number o with
  | Some y => (y <? x)%Z
  | None => false
  end.

(** [options.key > 0] *)
Definition opt_positive (o : option optval) : bool :=
  match opt_number o with
  | Some z => (0 <? z)%Z
  | None => false
  end.

(** What the constructor keeps: the [options] object its timer closures
    capture and the field [this._mdns_host_stategy]. *)
Record Config : Type := mkConfig {
  options : gmap string optval;
  _mdns_host_stategy : optval
}.

(** The constructor, as far as configuration goes. *)
Definition constructor (options : gmap string optval) : Config :=
  {| options := options;
     _mdns_host_stategy := opt_or (options !! "mdns_host_stategy") (OStr "rinfo") |}.

(** The state the constructor starts from. *)
Definition initial : Client :=
  {| _devices := ∅; devices := []; log := [] |}.

(** The garbage-collection timer is installed. *)
Definition gc_enabled (cfg : Config) : bool :=
  opt_positive (options cfg !! "gc_interval")
  && opt_positive (options cfg !! "gc_threshold").

(** [s.toLowerCase()], on ASCII letters. *)
Fixpoint toLowerCase (s : string) : string :=
  match s with
  | EmptyString => EmptyString
  | String c s' =>
      let n := nat_of_ascii c in
      String (if (65 <=? n)%nat && (n <=? 90)%nat then ascii_of_nat (n + 32) else c)
             (toLowerCase s')
  end.

(** ** mDNS and SSDP inputs *)

(** [a.data] of a TXT record, after [txt.decode] of each buffer: an array
    of buffers or a single buffer.  Decoding itself is the work of the
    [dns-txt] package. *)
Inductive txt_data : Type :=
| TxtArray (items : list (gmap string string))
| TxtBuffer (item : gmap string string).

(** A decoded answer [a] of an mDNS response. *)
Inductive answer : Type :=
| PTR (name data : string)
| SRV (name target : string)
| TXT (name : string) (data : txt_data)
| OtherRecord (type name : string).

(** What happened to [http.get(headers.LOCATION)] and [parseString]. *)
Inductive fetched : Type :=
| FetchFailed
| ParseFailed
| Parsed (device : option Dial.t).

(** An SSDP response with the outcome of its description fetch. *)
Module Ssdp.
Record response : Type := mk {
  statusCode : Z;
  LOCATION : Js.val;
  address : string;
  document : fetched
}.
End Ssdp.

(** An input of the client: a callback the event loop runs, with the
    clock reading [Math.floor(Date.now() / 1000)] it sees. *)
Inductive input : Type :=
| MdnsResponse (now : Z) (address : string) (answers additionals : list answer)
| SsdpResponse (now : Z) (r : Ssdp.response)
| GcTick (now : Z).

(** ** Garbage collection *)

(** [this.devices.splice(index, 1)] *)
Definition splice1 (index : nat) (l : list Device.t) : list Device.t :=
  delete index l.

(** The body of the [forEach] callback of the timer. *)
Definition gc_visit (cfg : Config) (now : Z) (d : Device.t) (index : nat)
    (c : Client) : Client :=
  match Device.last_seen d with
  | Some lastSeen =>
      if negb (lastSeen =? 0)%Z
         && num_gt_opt (now - lastSeen) (options cfg !! "gc_threshold")
      then
        {| _devices := delete (Js.to_key (Device.name d)) (_devices c);
           devices := splice1 index (devices c);
           log := log c ++ [Close d; Emit device_offline d] |}
      else c
  | None => c
  end.

(** [Array.prototype.forEach]: indices [k], [k+1], ... below the length
    read before the loop; an index no longer present is passed over. *)
Fixpoint forEach_from (n k : nat) (f : Device.t → nat → Client → Client)
    (c : Client) : Client :=
  match n with
  | O => c
  | S n' =>
      let c' :=
        match devices c !! k with
        | Some d => f d k c
        | None => c
        end in
      forEach_from n' (S k) f c'
  end.

(** One run of the timer callback. *)
Definition gc_tick (cfg : Config) (now : Z) (c : Client) : Client :=
  forEach_from (List.length (devices c)) 0 (gc_visit cfg now) c.

(** The [Device] class of [lib/device.js], as far as the client depends on
    it beyond storing its options: the [last_seen] property, the one the
    garbage collector reads, of a record constructed with the option
    [lastSeen]. *)
Class DeviceClass : Type := { new_last_seen : Z → option Z }.

Section client.

Context `{DeviceClass}.

(** Modelled from the spec: the constructor of [Device] ([lib/device.js]
    is not among the sources).  A Device Record holds identifier,
    discovery-name, friendly-name, host, manufacturer, model-name and
    last-seen, built "from the fragment with last-seen = now": every
    option is stored under its own name. *)
Definition Device_new (uuid : string)
    (name friendlyName host manufacturer modelName : Js.val) (lastSeen : Z)
    : Device.t :=
  {| Device.uuid := uuid;
     Device.name := name;
     Device.friendlyName := friendlyName;
     Device.host := host;
     Device.manufacturer := manufacturer;
     Device.modelName := modelName;
     Device.lastSeen := lastSeen;
     Device.last_seen := new_last_seen lastSeen |}.

(** ** Reconciliation *)

(** The comparison of [_updateDevice]: some field of the fragment [!=]
    the record's. *)
Definition differs (f : Fragment.t) (o : Device.t) : bool :=
  Js.loose_ne (Fragment.discoveryName f) (Device.name o)
  || Js.loose_ne (Fragment.friendlyName f) (Device.friendlyName o)
  || Js.loose_ne (Fragment.host f) (Device.host o)
  || Js.loose_ne (Fragment.manufacturer f) (Device.manufacturer o)
  || Js.loose_ne (Fragment.modelName f) (Device.modelName o).

(** The assignments to [oDevice] of the update branch. *)
Definition overwrite (f : Fragment.t) (lastSeen : Z) (o : Device.t) : Device.t :=
  {| Device.uuid := Device.uuid o;
     Device.name := Fragment.discoveryName f;
     Device.friendlyName := Fragment.friendlyName f;
     Device.host := Fragment.host f;
     Device.manufacturer := Fragment.manufacturer f;
     Device.modelName := Fragment.modelName f;
     Device.lastSeen := lastSeen;
     Device.last_seen := Device.last_seen o |}.

(** The three [if (...) this.emit(...)] at the end of [_updateDevice]. *)
Definition emissions (emitEvent emitOnlineEvent emitUpdatedEvent : bool)
    (oDevice : Device.t) : list effect :=
  (if emitEvent then [Emit device oDevice] else [])
  ++ (if emitOnlineEvent then [Emit device_online oDevice] else [])
  ++ (if emitUpdatedEvent then [Emit device_updated oDevice] else []).

(** [this.devices.find((v) => v.uuid == uuid)], with the index found. *)
Definition find_device (uuid : string) (l : list Device.t)
    : option (nat * Device.t) :=
  list_find (λ v, Device.uuid v = uuid) l.

(** [_updateDevice(uuid)].  Reading a field of a missing fragment throws. *)
Definition _updateDevice (now : Z) (uuid : string) (c : Client) : completion :=
  match _devices c !! uuid with
  | None => Throw c
  | Some dev =>
      let lastSeen := now in
      match find_device uuid (devices c) with
      | Some (i, oDevice) =>
          let changed := differs dev oDevice in
          let emitUpdatedEvent := changed in
          let emitEvent := changed in
          let oDevice' := overwrite dev lastSeen oDevice in
          Normal {| _devices := _devices c;
                    devices := <[i := oDevice']> (devices c);
                    log := log c ++ emissions emitEvent false emitUpdatedEvent oDevice' |}
      | None =>
          let oDevice :=
            Device_new uuid (Fragment.discoveryName dev)
              (Fragment.friendlyName dev) (Fragment.host dev)
              (Fragment.manufacturer dev) (Fragment.modelName dev) lastSeen in
          Normal {| _devices := _devices c;
                    devices := devices c ++ [oDevice];
                    log := log c ++ emissions true true false oDevice |}
      end
  end.

(** ** The mDNS fragment collector *)

(** [this._devices[uuid] = f] *)
Definition stage (uuid : string) (f : Fragment.t) (c : Client) : Client :=
  {| _devices := <[uuid := f]> (_devices c);
     devices := devices c;
     log := log c |}.

(** "do NOT announce until we have sufficient data" *)
Definition announce_if_ready (now : Z) (uuid : string) (f : Fragment.t)
    (c : Client) : completion :=
  if Fragment.announceable f then _updateDevice now uuid c else Normal c.

(** [if (v) f.field = v] *)
Definition set_if (v : Js.val) (set : Js.val → Fragment.t → Fragment.t)
    (f : Fragment.t) : Fragment.t :=
  if Js.truthy v then set v f else f.

(** The decoded key/value pairs of a TXT record: later buffers overwrite
    the keys of earlier ones. *)
Definition decode_txt (data : txt_data) : gmap string string :=
  match data with
  | TxtArray items => foldl (λ decodedData decodedItem, decodedItem ∪ decodedData) ∅ items
  | TxtBuffer item => item
  end.

(** [x || y] *)
Definition js_or (x y : Js.val) : Js.val := if Js.truthy x then x else y.

(** The host an SRV record gives under the configured strategy; [None]
    when [toLowerCase] is not a function of the configured value. *)
Definition srv_host (cfg : Config) (address target : string) : option Js.val :=
  match _mdns_host_stategy cfg with
  | OStr s =>
      if String.eqb (toLowerCase s) "srv" then Some (Js.Str target)
      else Some (Js.Str address)
  | _ => None
  end.

(** [onEachAnswer(a)] for a response from [address]. *)
Definition onEachAnswer (cfg : Config) (now : Z) (address : string)
    (a : answer) (c : Client) : completion :=
  match a with
  | PTR name data =>
      if String.eqb name "_googlecast._tcp.local" then
        let uuid := parseUUID data in
        let discoveryName := Js.Str data in
        match _devices c !! uuid with
        | None =>
            Normal (stage uuid
                      {| Fragment.friendlyName := Js.Null;
                         Fragment.host := Js.Null;
                         Fragment.uuid := Js.Str uuid;
                         Fragment.discoveryName := discoveryName;
                         Fragment.manufacturer := Js.Undefined;
                         Fragment.modelName := Js.Undefined |} c)
        | Some f =>
            let f := set_if discoveryName Fragment.set_discoveryName f in
            announce_if_ready now uuid f (stage uuid f c)
        end
      else Normal c
  | SRV name target =>
      let uuid := parseUUID name in
      let discoveryName := Js.Str name in
      match _devices c !! uuid with
      | Some f =>
          match srv_host cfg address target with
          | None => Throw c
          | Some h =>
              let f := Fragment.set_host h f in
              let f := set_if discoveryName Fragment.set_discoveryName f in
              announce_if_ready now uuid f (stage uuid f c)
          end
      | None => Normal c
      end
  | TXT name data =>
      let uuid := parseUUID name in
      let discoveryName := Js.Str name in
      match _devices c !! uuid with
      | Some f =>
          let decodedData := decode_txt data in
          let friendlyName :=
            js_or (Js.of_option (decodedData !! "fn"))
                  (Js.of_option (decodedData !! "n")) in
          let modelName := Js.of_option (decodedData !! "d") in
          let f := set_if discoveryName Fragment.set_discoveryName f in
          let f := set_if friendlyName Fragment.set_friendlyName f in
          let f :=
            if Js.truthy modelName && negb (Js.truthy (Fragment.modelName f))
            then Fragment.set_modelName modelName f else f in
          announce_if_ready now uuid f (stage uuid f c)
      | None => Normal c
      end
  | OtherRecord _ _ => Normal c
  end.

(** [l.forEach(onEachAnswer)]: a throw ends the loop. *)
Fixpoint forEach_answer (cfg : Config) (now : Z) (address : string)
    (l : list answer) (c : Client) : completion :=
  match l with
  | [] => Normal c
  | a :: l' =>
      match onEachAnswer cfg now address a c with
      | Normal c' => forEach_answer cfg now address l' c'
      | Throw c' => Throw c'
      end
  end.

(** The ['response'] listener of [queryMDNS]. *)
Definition onMdnsResponse (cfg : Config) (now : Z) (address : string)
    (answers additionals : list answer) (c : Client) : completion :=
  match forEach_answer cfg now address answers c with
  | Normal c' => forEach_answer cfg now address additionals c'
  | Throw c' => Throw c'
  end.

(** ** The SSDP fragment collector *)

(** [udn.replace(/uuid:/g, '').replace(/-/g, '')] *)
Definition strip_udn (udn : string) : string :=
  Re.remove_hyphens (Re.remove_uuid_colon udn).

(** The generated "chromecast style" name. *)
Definition synthesized_name (udn : string) : string :=
  "Chromecast-" ++ strip_udn udn ++ "._googlecast._tcp.local".

(** The merge of an SSDP description into an existing fragment. *)
Definition ssdp_merge (discoveryName friendlyName host manufacturer modelName : Js.val)
    (f : Fragment.t) : Fragment.t :=
  let f :=
    if Js.truthy discoveryName && negb (Js.truthy (Fragment.discoveryName f))
    then Fragment.set_discoveryName discoveryName f else f in
  let f := set_if friendlyName Fragment.set_friendlyName f in
  let f := set_if host Fragment.set_host f in
  let f := set_if manufacturer Fragment.set_manufacturer f in
  set_if modelName Fragment.set_modelName f.

(** The ['response'] listener of [querySSDP], run to the end of the
    [parseString] callback.  [udn.replace] throws when the document has
    no UDN. *)
Definition onSsdpResponse (now : Z) (r : Ssdp.response) (c : Client) : completion :=
  if negb (Ssdp.statusCode r =? 200)%Z || negb (Js.truthy (Ssdp.LOCATION r))
  then Normal c
  else
    let host := Js.Str (Ssdp.address r) in
    match Ssdp.document r with
    | FetchFailed => Normal c
    | ParseFailed => Normal c
    | Parsed None => Normal c
    | Parsed (Some d) =>
        if Js.loose_ne (Js.of_option (Dial.deviceType d)) (Js.Str SSDP_DEVICE_TYPE)
           || negb (Js.truthy (Js.of_option (Dial.friendlyName d)))
        then Normal c
        else
          let manufacturer := Js.of_option (Dial.manufacturer d) in
          let modelName := Js.of_option (Dial.modelName d) in
          let friendlyName := Js.of_option (Dial.friendlyName d) in
          match Js.of_option (Dial.UDN d) with
          | Js.Str udn =>
              let discoveryName := Js.Str (synthesized_name udn) in
              if negb (Js.truthy friendlyName) then Normal c
              else if negb (Js.truthy (Js.Str udn)) then Normal c
              else
                let uuid := parseUUID (strip_udn udn) in
                match _devices c !! uuid with
                | None =>
                    _updateDevice now uuid
                      (stage uuid
                         {| Fragment.friendlyName := friendlyName;
                            Fragment.host := host;
                            Fragment.uuid := Js.Undefined;
                            Fragment.discoveryName := discoveryName;
                            Fragment.manufacturer := manufacturer;
                            Fragment.modelName := modelName |} c)
                | Some f =>
                    let f := ssdp_merge discoveryName friendlyName host
                               manufacturer modelName f in
                    _updateDevice now uuid (stage uuid f c)
                end
          | _ => Throw c
          end
    end.

(** ** The client as a transition system *)

(** [mdns_enabled] and [ssdp_enabled]: true unless the key is in
    [options]. *)
Definition enabled (cfg : Config) (key : string) : bool :=
  match options cfg !! key with
  | Some v => opt_truthy v
  | None => true
  end.

(** One callback of the event loop.  A listener that was never installed
    never runs; a callback that throws leaves the state it reached. *)
Definition step (cfg : Config) (c : Client) (i : input) : Client :=
  match i with
  | MdnsResponse now address answers additionals =>
      if enabled cfg "mdns_enabled"
      then state_of (onMdnsResponse cfg now address answers additionals c)
      else c
  | SsdpResponse now r =>
      if enabled cfg "ssdp_enabled" then state_of (onSsdpResponse now r c) else c
  | GcTick now =>
      if gc_enabled cfg then gc_tick cfg now c else c
  end.

(** The state after a history of inputs, oldest first. *)
Definition run (cfg : Config) (history : list input) : Client :=
  foldl (step cfg) initial history.

End client.

(** ** Notions used in the statements *)

(** A pattern made of hexadecimal positions and hyphens. *)
Definition hyphenated (p : list Re.atom) : Prop :=
  Forall (λ a, a = Re.Hex ∨ a = Re.Lit "-"%char) p.

(** The number of hexadecimal positions of a pattern. *)
Fixpoint hex_positions (p : list Re.atom) : nat :=
  match p with
  | [] => 0
  | Re.Hex :: p' => S (hex_positions p')
  | Re.Lit _ :: p' => hex_positions p'
  end.

(** The normalizer as section 4.1 words it: all hyphens of the match are
    stripped. *)
Definition parseUUID_as_specified (data : string) : string :=
  match Re.exec Re.UUID_REGEX data with
  | Some m => Re.remove_hyphens m
  | None =>
      match Re.exec Re.UUID_REGEX_NO_HYPENS data with
      | Some m => m
      | None => data
      end
  end.

(** "canonical lowercase hex string (32 chars, hyphens stripped)" *)
Definition canonical_identifier (s : string) : bool :=
  Re.all_hex s && Re.is_lower s && (String.length s =? 32)%nat.

(** The test of the collector on one record: [last_seen] is set and
    older than [options.gc_threshold]. *)
Definition stale (cfg : Config) (now : Z) (d : Device.t) : bool :=
  match Device.last_seen d with
  | Some lastSeen =>
      negb (lastSeen =? 0)%Z
      && num_gt_opt (now - lastSeen) (options cfg !! "gc_threshold")
  | None => false
  end.

(** Every second element, from the second on. *)
Fixpoint odd_positions {A : Type} (l : list A) : list A :=
  match l with
  | _ :: y :: l' => y :: odd_positions l'
  | _ => []
  end.

(** A [Device] class that keeps [lastSeen] under the name [last_seen] as
    well, for the examples. *)
Definition storing_last_seen : DeviceClass :=
  {| new_last_seen := λ lastSeen, Some lastSeen |}.

(** Inputs of the garbage-collection examples: a collector every second
    with a threshold of two seconds, and two devices last seen at 997. *)
Definition gc_options : gmap string optval :=
  {[ "gc_interval" := ONum 1; "gc_threshold" := ONum 2 ]}.

Definition kitchen_uuid : string := "0123456789abcdef0123456789abcdef".
Definition kitchen_name : string :=
  "Chromecast-0123456789abcdef0123456789abcdef._googlecast._tcp.local".

Definition kitchen : Device.t :=
  {| Device.uuid := kitchen_uuid;
     Device.name := Js.Str kitchen_name;
     Device.friendlyName := Js.Str "Kitchen";
     Device.host := Js.Str "10.0.0.5";
     Device.manufacturer := Js.Undefined;
     Device.modelName := Js.Str "Chromecast Ultra";
     Device.lastSeen := 997;
     Device.last_seen := Some 997%Z |}.

Definition kitchen_fragment : Fragment.t :=
  {| Fragment.friendlyName := Js.Str "Kitchen";
     Fragment.host := Js.Str "10.0.0.5";
     Fragment.uuid := Js.Str kitchen_uuid;
     Fragment.discoveryName := Js.Str kitchen_name;
     Fragment.manufacturer := Js.Undefined;
     Fragment.modelName := Js.Str "Chromecast Ultra" |}.

Definition bedroom : Device.t :=
  {| Device.uuid := "fedcba9876543210fedcba9876543210";
     Device.name :=
       Js.Str "Chromecast-fedcba9876543210fedcba9876543210._googlecast._tcp.local";
     Device.friendlyName := Js.Str "Bedroom";
     Device.host := Js.Str "10.0.0.6";
     Device.manufacturer := Js.Undefined;
     Device.modelName := Js.Undefined;
     Device.lastSeen := 997;
     Device.last_seen := Some 997%Z |}.

(** *** What a handler stages *)

(** The fragment a PTR record for the service creates. *)
Definition fresh_fragment (uuid data : string) : Fragment.t :=
  {| Fragment.friendlyName := Js.Null;
     Fragment.host := Js.Null;
     Fragment.uuid := Js.Str uuid;
     Fragment.discoveryName := Js.Str data;
     Fragment.manufacturer := Js.Undefined;
     Fragment.modelName := Js.Undefined |}.

(** The friendly name and the model name a TXT record carries. *)
Definition txt_friendlyName (data : txt_data) : Js.val :=
  js_or (Js.of_option (decode_txt data !! "fn"))
        (Js.of_option (decode_txt data !! "n")).

Definition txt_modelName (data : txt_data) : Js.val :=
  Js.of_option (decode_txt data !! "d").

(** The identifier an answer is about and the fragment staged for it once
    the answer is processed in state [c]; [None] when the answer is
    not processed (or the SRV case throws). *)
Definition mdns_fragment (cfg : Config) (address : string) (a : answer)
    (c : Client) : option (string * Fragment.t) :=
  match a with
  | PTR name data =>
      if String.eqb name "_googlecast._tcp.local" then
        Some (parseUUID data,
              match _devices c !! parseUUID data with
              | None => fresh_fragment (parseUUID data) data
              | Some f => set_if (Js.Str data) Fragment.set_discoveryName f
              end)
      else None
  | SRV name target =>
      match _devices c !! parseUUID name, srv_host cfg address target with
      | Some f, Some h =>
          Some (parseUUID name,
                set_if (Js.Str name) Fragment.set_discoveryName
                  (Fragment.set_host h f))
      | _, _ => None
      end
  | TXT name data =>
      match _devices c !! parseUUID name with
      | Some f =>
          let f := set_if (Js.Str name) Fragment.set_discoveryName f in
          let f := set_if (txt_friendlyName data) Fragment.set_friendlyName f in
          Some (parseUUID name,
                if Js.truthy (txt_modelName data)
                   && negb (Js.truthy (Fragment.modelName f))
                then Fragment.set_modelName (txt_modelName data) f else f)
      | None => None
      end
  | OtherRecord _ _ => None
  end.

(** The description and UDN of a response that passes every check of the
    SSDP listener. *)
Definition ssdp_accepted (r : Ssdp.response) : option (Dial.t * string) :=
  if (Ssdp.statusCode r =? 200)%Z && Js.truthy (Ssdp.LOCATION r) then
    match Ssdp.document r with
    | Parsed (Some d) =>
        if Js.loose_eq (Js.of_option (Dial.deviceType d)) (Js.Str SSDP_DEVICE_TYPE)
           && Js.truthy (Js.of_option (Dial.friendlyName d))
        then
          match Dial.UDN d with
          | Some udn => if Js.truthy (Js.Str udn) then Some (d, udn) else None
          | None => None
          end
        else None
    | _ => None
    end
  else None.

(** The identifier an accepted response is about. *)
Definition ssdp_uuid (udn : string) : string := parseUUID (strip_udn udn).

(** The fragment staged for an accepted response, given the fragment
    staged before. *)
Definition ssdp_fragment (address : string) (d : Dial.t) (udn : string)
    (old : option Fragment.t) : Fragment.t :=
  match old with
  | None =>
      {| Fragment.friendlyName := Js.of_option (Dial.friendlyName d);
         Fragment.host := Js.Str address;
         Fragment.uuid := Js.Undefined;
         Fragment.discoveryName := Js.Str (synthesized_name udn);
         Fragment.manufacturer := Js.of_option (Dial.manufacturer d);
         Fragment.modelName := Js.of_option (Dial.modelName d) |}
  | Some f =>
      ssdp_merge (Js.Str (synthesized_name udn))
        (Js.of_option (Dial.friendlyName d)) (Js.Str address)
        (Js.of_option (Dial.manufacturer d)) (Js.of_option (Dial.modelName d)) f
  end.

(** *** Kinds of values *)




(** *** Reconciliation *)

(** The five compared fields of the record are those of the fragment. *)
Definition same_fields (f : Fragment.t) (o : Device.t) : Prop :=
  Device.name o = Fragment.discoveryName f
  ∧ Device.friendlyName o = Fragment.friendlyName f
  ∧ Device.host o = Fragment.host f
  ∧ Device.manufacturer o = Fragment.manufacturer f
  ∧ Device.modelName o = Fragment.modelName f.

#[global] Instance same_fields_dec f o : Decision (same_fields f o).
Proof. unfold same_fields. apply _. Defined.

(** The record with [lastSeen] refreshed and nothing else changed. *)
Definition refreshed (lastSeen : Z) (o : Device.t) : Device.t :=
  {| Device.uuid := Device.uuid o;
     Device.name := Device.name o;
     Device.friendlyName := Device.friendlyName o;
     Device.host := Device.host o;
     Device.manufacturer := Device.manufacturer o;
     Device.modelName := Device.modelName o;
     Device.lastSeen := lastSeen;
     Device.last_seen := Device.last_seen o |}.

(** Inputs of the host-strategy examples. *)
Definition strategy_options : gmap string optval :=
  {[ "mdns_host_strategy" := OStr "srv" ]}.

Definition stategy_options : gmap string optval :=
  {[ "mdns_host_stategy" := OStr "SRV" ]}.

Definition kitchen_answers : list answer :=
  [ PTR "_googlecast._tcp.local" kitchen_name;
    SRV kitchen_name "kitchen.local";
    TXT kitchen_name (TxtBuffer {[ "fn" := "Kitchen"; "d" := "Chromecast Ultra" ]}) ].

Definition bedroom_answers : list answer :=
  [ PTR "_googlecast._tcp.local"
      "Chromecast-fedcba9876543210fedcba9876543210._googlecast._tcp.local";
    SRV "Chromecast-fedcba9876543210fedcba9876543210._googlecast._tcp.local"
      "bedroom.local";
    TXT "Chromecast-fedcba9876543210fedcba9876543210._googlecast._tcp.local"
      (TxtBuffer {[ "fn" := "Bedroom" ]}) ].



(** *** Observations *)







(** *** Precedence *)



(** *** Re-delivery *)

(** What an answer writes into the fragment of its identifier: a
    discovery name, maybe a host, a friendly name and a model name
    ([undefined] where the record kind has none). *)
Record writes : Type := mkWrites {
  w_discoveryName : Js.val;
  w_host : option Js.val;
  w_friendlyName : Js.val;
  w_modelName : Js.val
}.

(** The assignments of the handlers, in their order. *)
Definition apply_writes (w : writes) (f : Fragment.t) : Fragment.t :=
  let f := match w_host w with Some h => Fragment.set_host h f | None => f end in
  let f := set_if (w_discoveryName w) Fragment.set_discoveryName f in
  let f := set_if (w_friendlyName w) Fragment.set_friendlyName f in
  if Js.truthy (w_modelName w) && negb (Js.truthy (Fragment.modelName f))
  then Fragment.set_modelName (w_modelName w) f else f.

(** The name an answer identifies its device by, and what it writes. *)
Definition answer_writes (cfg : Config) (address : string) (a : answer)
    : option (string * writes) :=
  match a with
  | PTR name data =>
      if String.eqb name "_googlecast._tcp.local"
      then Some (data, mkWrites (Js.Str data) None Js.Undefined Js.Undefined)
      else None
  | SRV name target =>
      (λ h, (name, mkWrites (Js.Str name) (Some h) Js.Undefined Js.Undefined))
        <$> srv_host cfg address target
  | TXT name data =>
      Some (name, mkWrites (Js.Str name) None (txt_friendlyName data)
                    (txt_modelName data))
  | OtherRecord _ _ => None
  end.

(** Two sets of writes never disagree on a value. *)
Definition compatible (w w' : writes) : Prop :=
  (Js.truthy (w_discoveryName w) = true → Js.truthy (w_discoveryName w') = true →
   w_discoveryName w = w_discoveryName w')
  ∧ (∀ h h', w_host w = Some h → w_host w' = Some h' → h = h')
  ∧ (Js.truthy (w_friendlyName w) = true → Js.truthy (w_friendlyName w') = true →
     w_friendlyName w = w_friendlyName w').

(** [o'] is [o], possibly with [lastSeen] set to [now]. *)
Definition refreshes (now : Z) (o o' : Device.t) : Prop :=
  o' = o ∨ o' = refreshed now o.

(** [c'] is [c] but for [lastSeen] of some records, now [now]: same
    staging table, same effects so far, same records field by field. *)
Definition touched (now : Z) (c c' : Client) : Prop :=
  _devices c' = _devices c
  ∧ log c' = log c
  ∧ Forall2 (refreshes now) (devices c) (devices c').

(** An announceable fragment of [u] has its record, with the same
    fields. *)
Definition synced (u : string) (f : Fragment.t) (c : Client) : Prop :=
  Fragment.announceable f = true →
  ∃ i o, find_device u (devices c) = Some (i, o) ∧ same_fields f o.

(** Processing the answer in [c] changes nothing but [lastSeen]: it is
    not processed, or it stages what is staged and the record is in step. *)
Definition quiet (cfg : Config) (address : string) (a : answer) (c : Client)
    : Prop :=
  match mdns_fragment cfg address a c with
  | None => True
  | Some (u, f) => _devices c !! u = Some f ∧ synced u f c
  end.

(** The strategy is a string, as [toLowerCase] needs. *)
Definition strategy_is_string (cfg : Config) : Prop :=
  ∃ s, _mdns_host_stategy cfg = OStr s.

(** A PTR, SRV and TXT sequence whose records disagree on the name. *)
Definition kitchen_name_dotted : string :=
  "Chromecast-0123456789abcdef0123456789abcdef._googlecast._tcp.local.".

Definition disagreeing_answers : list answer :=
  [ PTR "_googlecast._tcp.local" kitchen_name_dotted;
    SRV kitchen_name "kitchen.local";
    TXT kitchen_name (TxtBuffer {[ "fn" := "Kitchen" ]}) ].

(** The answer is processed in [c], stages for [u] the fragment [f] that
    is staged already, and the record of [u] is in step with it. *)
Definition settled (cfg : Config) (address : string) (a : answer) (c : Client)
    (u : string) (f : Fragment.t) : Prop :=
  mdns_fragment cfg address a c = Some (u, f)
  ∧ _devices c !! u = Some f
  ∧ synced u f c.

(** The records the events named [e] of a log were emitted with. *)
Definition emitted (e : event_name) (l : list effect) : list Device.t :=
  omap (λ x, match x with
             | Emit e' d => if decide (e' = e) then Some d else None
             | Close _ => None
             end) l.

(** The description document of scenario 2 of the specification. *)
Definition dial_response : Ssdp.response :=
  {| Ssdp.statusCode := 200;
     Ssdp.LOCATION := Js.Str "http://10.0.0.7:8008/ssdp/device-desc.xml";
     Ssdp.address := "10.0.0.7";
     Ssdp.document :=
       Parsed (Some {| Dial.deviceType := Some SSDP_DEVICE_TYPE;
                       Dial.friendlyName := Some "Kitchen";
                       Dial.manufacturer := None;
                       Dial.modelName := None;
                       Dial.UDN := Some "uuid:1111-2222-3333-4444-555566667777" |}) |}.

(** *** Evictions *)

(** What the collector does to the outside for the records [evicted], in
    order: [close] of the record, then the offline event. *)
Definition eviction_effects (evicted : list Device.t) : list effect :=
  evicted ≫= λ d, [Close d; Emit device_offline d].

(** The staging table after the evictions: each one deletes the key that
    is the record's name. *)
Definition unstaged (evicted : list Device.t) (m : gmap string Fragment.t)
    : gmap string Fragment.t :=
  foldl (λ m d, delete (Js.to_key (Device.name d)) m) m evicted.

(** *** What discovery keeps *)

(** A discovery callback: the listener of an mDNS or an SSDP response. *)
Definition discovery (i : input) : Prop :=
  match i with
  | GcTick _ => False
  | _ => True
  end.

(** What the collector reads of a record, with the record's identifier. *)
Definition collected (d : Device.t) : string * option Z :=
  (Device.uuid d, Device.last_seen d).

(** The records [close] was called on. *)
Definition closed (l : list effect) : list Device.t :=
  omap (λ x, match x with
             | Close d => Some d
             | Emit _ _ => None
             end) l.

(** *** Types of the fields of a record *)



(** *** The registry as a mirror of the staging table *)


(** *** Accounting of the events *)

(** Every record in the registry was announced online when it was added
    and every removed record offline: the online events are as many as
    the records held plus the offline events; each [device] event comes
    with an online or an updated event; [close] is called on the records
    announced offline and on no other. *)
Definition balanced (c : Client) : Prop :=
  List.length (emitted device_online (log c))
  = List.length (devices c) + List.length (emitted device_offline (log c))
  ∧ List.length (emitted device (log c))
    = List.length (emitted device_online (log c))
      + List.length (emitted device_updated (log c))
  ∧ closed (log c) = emitted device_offline (log c).

(** *** Answers and responses that are dropped *)




(** *** Hyphens of a string *)

(** The number of hyphens of [s]. *)
Fixpoint hyphens (s : string) : nat :=
  match s with
  | EmptyString => 0
  | String c s' => (if Ascii.eqb c "-"%char then 1 else 0) + hyphens s'
  end.

(** A UUID as [UUID_REGEX] matches it, from its start to its end. *)
Definition is_uuid (h : string) : Prop :=
  Re.match_here Re.UUID_REGEX h = Some h.

(** ** Sockets, timers and the public methods *)

(** The two transports of the client. *)
Inductive transport : Type :=
| OverMdns
| OverSsdp.

#[global] Instance transport_eq_dec : EqDecision transport.
Proof. solve_decision. Defined.

(** The calls the client makes on its mDNS socket ([this._mdns]) and on
    its SSDP client ([this._ssdp]) once they are created. *)
Inductive call : Type :=
| MdnsQuery (name type : string)
| MdnsRemoveAllListeners
| MdnsDestroy
| SsdpSearch (serviceType : string)
| SsdpRemoveAllListeners
| SsdpStop.

#[global] Instance call_eq_dec : EqDecision call.
Proof. solve_decision. Defined.

Definition call_transport (x : call) : transport :=
  match x with
  | MdnsQuery _ _ | MdnsRemoveAllListeners | MdnsDestroy => OverMdns
  | SsdpSearch _ | SsdpRemoveAllListeners | SsdpStop => OverSsdp
  end.

(** The fields of a [Client] that hold its sockets and timers, with the
    calls made on the transports so far (oldest first).  [_mdns] and
    [_ssdp] tell whether the field holds a socket, which then has the
    ['response'] listener of [queryMDNS] or [querySSDP]; a timer field
    holds the period in milliseconds of a running interval, and [None]
    when no interval was set or it was cleared.  The timeout is [None]
    until the constructor assigns it. *)
Record Handles : Type := mkHandles {
  _mdns : bool;
  _ssdp : bool;
  gcIntervalRef : option Z;
  updateIntervalRef : option Z;
  _ssdp_device_endpoint_http_timeout : option optval;
  sent : list call
}.

(** [_triggerMDNS()] *)
Definition _triggerMDNS (h : Handles) : Handles :=
  if _mdns h
  then mkHandles (_mdns h) (_ssdp h) (gcIntervalRef h) (updateIntervalRef h)
         (_ssdp_device_endpoint_http_timeout h)
         (sent h ++ [MdnsQuery "_googlecast._tcp.local" "PTR"])
  else h.

(** [_triggerSSDP()] *)
Definition _triggerSSDP (h : Handles) : Handles :=
  if _ssdp h
  then mkHandles (_mdns h) (_ssdp h) (gcIntervalRef h) (updateIntervalRef h)
         (_ssdp_device_endpoint_http_timeout h)
         (sent h ++ [SsdpSearch SSDP_DEVICE_TYPE])
  else h.

(** [queryMDNS()]: the socket is created, the listener installed and the
    first query sent. *)
Definition queryMDNS (h : Handles) : Handles :=
  _triggerMDNS
    (mkHandles true (_ssdp h) (gcIntervalRef h) (updateIntervalRef h)
       (_ssdp_device_endpoint_http_timeout h) (sent h)).

(** [querySSDP()] *)
Definition querySSDP (h : Handles) : Handles :=
  _triggerSSDP
    (mkHandles (_mdns h) true (gcIntervalRef h) (updateIntervalRef h)
       (_ssdp_device_endpoint_http_timeout h) (sent h)).

(** [update()] *)
Definition update (h : Handles) : Handles := _triggerSSDP (_triggerMDNS h).

(** [destroy()]: both intervals are cleared, then each transport that is
    there loses its listeners, is shut down and its field set to [null].
    ([this.removeAllListeners()] acts on the consumers' listeners, which
    are no part of [Handles].) *)
Definition destroy (h : Handles) : Handles :=
  let h :=
    mkHandles (_mdns h) (_ssdp h) None None
      (_ssdp_device_endpoint_http_timeout h) (sent h) in
  let h :=
    if _mdns h
    then mkHandles false (_ssdp h) (gcIntervalRef h) (updateIntervalRef h)
           (_ssdp_device_endpoint_http_timeout h)
           (sent h ++ [MdnsRemoveAllListeners; MdnsDestroy])
    else h in
  if _ssdp h
  then mkHandles (_mdns h) false (gcIntervalRef h) (updateIntervalRef h)
         (_ssdp_device_endpoint_http_timeout h)
         (sent h ++ [SsdpRemoveAllListeners; SsdpStop])
  else h.

(** [1000 * options.key] *)
Definition opt_seconds (o : option optval) : option Z :=
  Z.mul 1000 <$> opt_number o.

(** The constructor, as far as sockets and timers go. *)
Definition constructor_handles (options : gmap string optval) : Handles :=
  let cfg := constructor options in
  let h := mkHandles false false None None None [] in
  let h := if enabled cfg "mdns_enabled" then queryMDNS h else h in
  let h :=
    mkHandles (_mdns h) (_ssdp h) (gcIntervalRef h) (updateIntervalRef h)
      (Some (opt_or (options !! "ssdp_device_endpoint_http_timeout") (ONum 5000)))
      (sent h) in
  let h := if enabled cfg "ssdp_enabled" then querySSDP h else h in
  let h :=
    if opt_positive (options !! "gc_interval")
       && opt_positive (options !! "gc_threshold")
    then mkHandles (_mdns h) (_ssdp h) (opt_seconds (options !! "gc_interval"))
           (updateIntervalRef h) (_ssdp_device_endpoint_http_timeout h) (sent h)
    else h in
  if opt_positive (options !! "update_interval")
  then mkHandles (_mdns h) (_ssdp h) (gcIntervalRef h)
         (opt_seconds (options !! "update_interval"))
         (_ssdp_device_endpoint_http_timeout h) (sent h)
  else h.

(** A client: its registry state and its sockets and timers. *)
Record Instance : Type := mkInstance {
  state : Client;
  handles : Handles
}.

(** What happens to a client: the event loop delivers a response or the
    tick of the collector's interval, the update interval elapses, or the
    consumer calls [update()] or [destroy()].  A response is delivered to
    the listener of its transport; an SSDP response comes with the outcome
    of its description fetch. *)
Inductive occurrence : Type :=
| Deliver (i : input)
| UpdateTick
| CallUpdate
| CallDestroy.

Section instance.

Context `{DeviceClass}.

(** A listener runs while its socket is there, a timer callback while
    its interval is. *)
Definition react (cfg : Config) (x : Instance) (o : occurrence) : Instance :=
  match o with
  | Deliver (MdnsResponse now address answers additionals) =>
      if _mdns (handles x)
      then mkInstance
             (state_of (onMdnsResponse cfg now address answers additionals (state x)))
             (handles x)
      else x
  | Deliver (SsdpResponse now r) =>
      if _ssdp (handles x)
      then mkInstance (state_of (onSsdpResponse now r (state x))) (handles x)
      else x
  | Deliver (GcTick now) =>
      match gcIntervalRef (handles x) with
      | Some _ => mkInstance (gc_tick cfg now (state x)) (handles x)
      | None => x
      end
  | UpdateTick =>
      match updateIntervalRef (handles x) with
      | Some _ => mkInstance (state x) (update (handles x))
      | None => x
      end
  | CallUpdate => mkInstance (state x) (update (handles x))
  | CallDestroy => mkInstance (state x) (destroy (handles x))
  end.

(** [new Client(options)] *)
Definition new_Client (options : gmap string optval) : Instance :=
  mkInstance initial (constructor_handles options).

(** The client after the occurrences [os], oldest first. *)
Definition live (options : gmap string optval) (os : list occurrence) : Instance :=
  foldl (react (constructor options)) (new_Client options) os.

End instance.

(** *** Notions for the statements on instances *)




(** The option that switches a transport off. *)
Definition option_key (t : transport) : string :=
  match t with
  | OverMdns => "mdns_enabled"
  | OverSsdp => "ssdp_enabled"
  end.

(** The field of the transport holds a socket. *)
Definition opened (t : transport) (h : Handles) : bool :=
  match t with
  | OverMdns => _mdns h
  | OverSsdp => _ssdp h
  end.

(** The sockets and timers of [h], apart from the calls made. *)
Definition installed (h : Handles) : bool * bool * option Z * option Z :=
  (_mdns h, _ssdp h, gcIntervalRef h, updateIntervalRef h).

(** The queries a client with these options sends at a time. *)
Definition queries (options : gmap string optval) : list call :=
  (if enabled (constructor options) "mdns_enabled"
   then [MdnsQuery "_googlecast._tcp.local" "PTR"] else [])
  ++ (if enabled (constructor options) "ssdp_enabled"
      then [SsdpSearch SSDP_DEVICE_TYPE] else []).

(** A [Device] class that keeps [lastSeen] under that name only, so that
    [last_seen] is [undefined]. *)
Definition forgetting_last_seen : DeviceClass :=
  {| new_last_seen := λ _, None |}.

(** Inputs of the examples on sockets and timers: a client without mDNS,
    and a few occurrences with no call of [destroy()]. *)
Definition ssdp_only_options : gmap string optval :=
  {[ "mdns_enabled" := OBool false ]}.

Definition kitchen_occurrences : list occurrence :=
  [ Deliver (MdnsResponse 997 "10.0.0.5" kitchen_answers []);
    CallUpdate;
    UpdateTick ].




(** *** Announcements *)



(** * Properties *)

Local Open Scope list_scope.

(** ** The identifier normalizer *)

Example parseUUID_hyphenated :
  parseUUID "Chromecast-01234567-89ab-cdef-0123-456789abcdef._googlecast"
  = "0123456789ab-cdef-0123-456789abcdef".
Proof. vm_compute. reflexivity. Qed.

Example parseUUID_bare :
  parseUUID "Chromecast-0123456789abcdef0123456789ABCDEF._googlecast._tcp.local"
  = "0123456789abcdef0123456789ABCDEF".
Proof. vm_compute. reflexivity. Qed.

Example parseUUID_opaque : parseUUID "Living Room" = "Living Room".
Proof. vm_compute. reflexivity. Qed.

Lemma is_hex_not_hyphen c : Re.is_hex c = true → Ascii.eqb c "-"%char = false.
Proof.
  intros Hc. destruct (Ascii.eqb_spec c "-"%char) as [->|]; [|done].
  vm_compute in Hc. discriminate.
Qed.

Lemma remove_hyphens_replace_first s :
  Re.remove_hyphens (Re.replace_first_hyphen s) = Re.remove_hyphens s.
Proof.
  induction s as [|c s IH]; simpl; [done|].
  destruct (Ascii.eqb c "-"%char) eqn:E; simpl; [done|].
  by rewrite E, IH.
Qed.

Lemma match_here_hyphenated p : hyphenated p → ∀ s m,
  Re.match_here p s = Some m →
  Re.all_hex (Re.remove_hyphens m) = true
  ∧ String.length (Re.remove_hyphens m) = hex_positions p.
Proof.
  induction 1 as [|a p Ha Hp IH]; intros s m Hm; simpl in Hm.
  - by inversion Hm.
  - destruct s as [|c s]; [done|].
    destruct (Re.atom_matches a c) eqn:Hc; [|done].
    destruct (Re.match_here p s) as [m'|] eqn:Hm'; [|done].
    inversion Hm; subst m; clear Hm.
    destruct (IH _ _ Hm') as [IH1 IH2].
    destruct Ha as [->| ->]; unfold Re.atom_matches in Hc.
    + simpl. rewrite (is_hex_not_hyphen _ Hc). simpl. by rewrite Hc, IH1, IH2.
    + apply Ascii.eqb_eq in Hc as <-. done.
Qed.

Lemma match_here_hexes n s m :
  Re.match_here (Re.hexes n) s = Some m →
  Re.all_hex m = true ∧ String.length m = n.
Proof.
  unfold Re.hexes. revert s m. induction n as [|n IH]; intros s m; simpl.
  - by intros [= <-].
  - destruct s as [|c s]; [done|].
    destruct (Re.is_hex c) eqn:Hc; [|done].
    destruct (Re.match_here (replicate n Re.Hex) s) as [m'|] eqn:Hm'; [|done].
    intros [= <-]. destruct (IH _ _ Hm') as [IH1 IH2].
    simpl. by rewrite Hc, IH1, IH2.
Qed.

Lemma exec_match_here p s m :
  Re.exec p s = Some m → ∃ s', Re.match_here p s' = Some m.
Proof.
  induction s as [|c s IH]; simpl.
  - destruct (Re.match_here p "") eqn:E; [|done]. intros [= <-]. eauto.
  - destruct (Re.match_here p (String c s)) eqn:E.
    + intros [= <-]. eauto.
    + done.
Qed.

Lemma hyphenated_UUID_REGEX : hyphenated Re.UUID_REGEX.
Proof. unfold hyphenated. vm_compute. repeat (constructor; [by auto|]). constructor. Qed.

(** C3, as the code has it: [parseUUID] is total; on a string with a
    hyphenated UUID the result comes from the leftmost match and holds,
    hyphens apart, its 32 hexadecimal digits in the case they were written
    in; else a bare run of 32 hexadecimal digits is returned verbatim; else
    the string itself. *)
Theorem parseUUID_contract (s : string) :
  match Re.exec Re.UUID_REGEX s with
  | Some m =>
      Re.remove_hyphens (parseUUID s) = Re.remove_hyphens m
      ∧ Re.all_hex (Re.remove_hyphens m) = true
      ∧ String.length (Re.remove_hyphens m) = 32
  | None =>
      match Re.exec Re.UUID_REGEX_NO_HYPENS s with
      | Some m => parseUUID s = m ∧ Re.all_hex m = true ∧ String.length m = 32
      | None => parseUUID s = s
      end
  end.
Proof.
  unfold parseUUID.
  destruct (Re.exec Re.UUID_REGEX s) as [m|] eqn:E1.
  - apply exec_match_here in E1 as [s' Hm].
    destruct (match_here_hyphenated _ hyphenated_UUID_REGEX _ _ Hm) as [H1 H2].
    split; [apply remove_hyphens_replace_first|]. split; [done|].
    rewrite H2. by vm_compute.
  - destruct (Re.exec Re.UUID_REGEX_NO_HYPENS s) as [m|] eqn:E2; [|done].
    apply exec_match_here in E2 as [s' Hm].
    apply match_here_hexes in Hm as [H1 H2]. done.
Qed.

(** C3 as stated fails: on a hyphenated UUID written in capitals the
    result keeps three of its four hyphens and its capitals, so it is
    neither the match with its hyphens stripped nor a canonical
    identifier. *)
Lemma parseUUID_not_canonical :
  let s := "Chromecast-ABCDEF01-2345-6789-ABCD-EF0123456789._googlecast._tcp.local" in
  Re.exec Re.UUID_REGEX s = Some "ABCDEF01-2345-6789-ABCD-EF0123456789"
  ∧ parseUUID s = "ABCDEF012345-6789-ABCD-EF0123456789"
  ∧ parseUUID s ≠ parseUUID_as_specified s
  ∧ canonical_identifier (parseUUID s) = false
  ∧ canonical_identifier (parseUUID_as_specified s) = false.
Proof. vm_compute. repeat split; try reflexivity. discriminate. Qed.

(** ** Garbage collection *)

Lemma gc_visit_stale cfg now d index c :
  stale cfg now d = true →
  gc_visit cfg now d index c =
    {| _devices := delete (Js.to_key (Device.name d)) (_devices c);
       devices := delete index (devices c);
       log := log c ++ [Close d; Emit device_offline d] |}.
Proof.
  unfold stale, gc_visit. destruct (Device.last_seen d); [|done].
  by intros ->.
Qed.

Lemma gc_visit_fresh cfg now d index c :
  stale cfg now d = false → gc_visit cfg now d index c = c.
Proof.
  unfold stale, gc_visit. destruct (Device.last_seen d); [|done].
  by intros ->.
Qed.

Lemma forEach_from_past_end n k f c :
  List.length (devices c) ≤ k → forEach_from n k f c = c.
Proof.
  revert k c. induction n as [|n IH]; intros k c Hk; simpl; [done|].
  rewrite (lookup_ge_None_2 (devices c) k) by done.
  apply IH. lia.
Qed.

(** X2: when every record of the registry is stale, one run of the
    collector evicts the records at even positions and passes over the
    others, which stay in the registry in their order. *)
Lemma gc_tick_all_stale cfg now c :
  Forall (λ d, stale cfg now d = true) (devices c) →
  devices (gc_tick cfg now c) = odd_positions (devices c).
Proof.
  unfold gc_tick.
  assert (∀ n (pre rest : list Device.t) c,
    devices c = (pre ++ rest)%list →
    Forall (λ d, stale cfg now d = true) rest →
    List.length rest ≤ n →
    devices (forEach_from n (List.length pre) (gc_visit cfg now) c)
    = (pre ++ odd_positions rest)%list) as H.
  { clear c. induction n as [|n IH]; intros pre rest c Hc Hst Hn.
    - destruct rest; simpl in *; [|lia]. done.
    - destruct rest as [|d rest]; simpl.
      + rewrite Hc, lookup_ge_None_2 by (rewrite length_app; simpl; lia).
        rewrite forEach_from_past_end; [done|].
        rewrite Hc, length_app. simpl. lia.
      + rewrite Hc at 1. rewrite list_lookup_middle by done.
        inversion Hst as [|? ? Hd Hrest]; subst.
        rewrite gc_visit_stale by done.
        destruct rest as [|e rest].
        * rewrite forEach_from_past_end; simpl.
          -- rewrite Hc. rewrite delete_middle. done.
          -- rewrite Hc, delete_middle, length_app. simpl. lia.
        * replace (S (List.length pre)) with (List.length (pre ++ [e]))
            by (rewrite length_app; simpl; lia).
          inversion Hrest; subst.
          rewrite (IH (pre ++ [e]) rest); simpl.
          -- by rewrite <- app_assoc.
          -- rewrite Hc, delete_middle. by rewrite <- app_assoc.
          -- done.
          -- simpl in Hn. lia. }
  intros Hall. apply (H _ [] (devices c) c); [done|done|lia].
Qed.

(** X1: a run of the collector never evicts a record that is not stale:
    the records within the threshold, and those whose [last_seen] is
    undefined or zero, are in the registry afterwards as before, in the
    same order. *)
Lemma gc_tick_keeps_fresh cfg now c :
  filter (λ d, stale cfg now d = false) (devices (gc_tick cfg now c))
  = filter (λ d, stale cfg now d = false) (devices c).
Proof.
  unfold gc_tick. generalize (List.length (devices c)) 0.
  intros n. revert c. induction n as [|n IH]; intros c k; simpl; [done|].
  destruct (devices c !! k) as [d|] eqn:Hk; [|apply IH].
  rewrite IH. destruct (stale cfg now d) eqn:Hd.
  - rewrite gc_visit_stale by done. simpl.
    rewrite delete_take_drop. apply take_drop_middle in Hk.
    rewrite <- Hk at 3.
    rewrite !filter_app, filter_cons_False; [done|]. by rewrite Hd.
  - by rewrite gc_visit_fresh.
Qed.

(** C2, at the failing input: two devices are discovered and both are
    stale when the collector runs; the tick visits and evicts the first
    only, the second takes its index and is passed over. *)
Theorem gc_tick_skips_after_eviction :
  let cfg := constructor gc_options in
  let before :=
    run (H := storing_last_seen) cfg
      [MdnsResponse 997 "10.0.0.5" kitchen_answers [];
       MdnsResponse 997 "10.0.0.6" bedroom_answers []] in
  let after := step (H := storing_last_seen) cfg before (GcTick 1000) in
  devices before = [kitchen; bedroom]
  ∧ Forall (λ d, stale cfg 1000 d = true) (devices before)
  ∧ devices after = [bedroom]
  ∧ emitted device_offline (log after) = [kitchen].
Proof.
  intros cfg before after.
  assert (devices before = [kitchen; bedroom]) as Hbefore by (by vm_compute).
  split; [done|]. split.
  - rewrite Hbefore. by repeat constructor.
  - split; by vm_compute.
Qed.

(** C1, at the failing input: a device is discovered and is stale when the
    collector runs; the tick evicts its record from the registry, closing
    it and emitting one offline event, but its fragment stays in the
    staging table, which is keyed by identifier while the deletion goes
    by the record's name. *)
Theorem gc_tick_leaves_fragment_staged :
  let cfg := constructor gc_options in
  let before :=
    run (H := storing_last_seen) cfg
      [MdnsResponse 997 "10.0.0.5" kitchen_answers []] in
  let after := step (H := storing_last_seen) cfg before (GcTick 1000) in
  devices before = [kitchen]
  ∧ _devices before !! kitchen_uuid = Some kitchen_fragment
  ∧ stale cfg 1000 kitchen = true
  ∧ devices after = []
  ∧ log after = log before ++ [Close kitchen; Emit device_offline kitchen]
  ∧ _devices after !! kitchen_uuid = Some kitchen_fragment.
Proof. intros cfg before after. repeat split; by vm_compute. Qed.

(** ** The host strategy *)

(** Under the name the constructor reads, the option selects the host of
    an SRV record: the target for [srv] in any case of letters, the
    responder's address otherwise and by default. *)
Lemma srv_host_by_stategy options address target :
  srv_host (constructor options) address target =
    match options !! "mdns_host_stategy" with
    | Some (OStr s) =>
        if String.eqb s "" then Some (Js.Str address)
        else if String.eqb (toLowerCase s) "srv" then Some (Js.Str target)
        else Some (Js.Str address)
    | Some (ONum z) => if (z =? 0)%Z then Some (Js.Str address) else None
    | Some (OBool b) => if b then None else Some (Js.Str address)
    | None => Some (Js.Str address)
    end.
Proof.
  unfold srv_host, constructor, opt_or. simpl.
  destruct (options !! "mdns_host_stategy") as [[s|z|[]]|]; simpl; try done.
  - destruct (String.eqb s ""); simpl; done.
  - destruct (z =? 0)%Z; simpl; done.
Qed.

(** C9, at the failing input: with [mdns_host_strategy: 'srv'] in the
    options the configured strategy stays [rinfo] and the host staged for
    an SRV record is the responder's address, not the record's target; the
    option takes effect under the name [mdns_host_stategy]. *)
Theorem host_strategy_option_not_read :
  let cfg := constructor strategy_options in
  _mdns_host_stategy cfg = OStr "rinfo"
  ∧ srv_host cfg "10.0.0.5" "kitchen.local" = Some (Js.Str "10.0.0.5")
  ∧ (Fragment.host <$>
       _devices (state_of (onMdnsResponse (H := storing_last_seen) cfg 1000 "10.0.0.5"
                             kitchen_answers [] initial)) !! kitchen_uuid)
     = Some (Js.Str "10.0.0.5")
  ∧ srv_host (constructor stategy_options) "10.0.0.5" "kitchen.local"
    = Some (Js.Str "kitchen.local").
Proof. repeat split; by vm_compute. Qed.

(** ** Shape of the handlers *)

Section handlers.

Context `{DeviceClass}.
Variable cfg : Config.


Lemma onEachAnswer_staged now address a c u f :
  mdns_fragment cfg address a c = Some (u, f) →
  onEachAnswer cfg now address a c
  = announce_if_ready now u f (stage u f c).
Proof.
  destruct a as [name data|name target|name data|ty name]; simpl; try done.
  - destruct (String.eqb name "_googlecast._tcp.local"); [|done].
    destruct (_devices c !! parseUUID data) as [f0|] eqn:E; intros [= <- <-].
    + done.
    + done.
  - destruct (_devices c !! parseUUID name) as [f0|]; [|done].
    destruct (srv_host cfg address target); [|done]. by intros [= <- <-].
  - destruct (_devices c !! parseUUID name) as [f0|]; [|done].
    by intros [= <- <-].
Qed.

Lemma onEachAnswer_ignored now address a c :
  mdns_fragment cfg address a c = None →
  state_of (onEachAnswer cfg now address a c) = c.
Proof.
  destruct a as [name data|name target|name data|ty name]; simpl; try done.
  - by destruct (String.eqb name "_googlecast._tcp.local").
  - destruct (_devices c !! parseUUID name) as [f0|]; [|done].
    by destruct (srv_host cfg address target).
  - by destruct (_devices c !! parseUUID name).
Qed.

Lemma onSsdpResponse_accepted now r c d udn :
  ssdp_accepted r = Some (d, udn) →
  onSsdpResponse now r c
  = _updateDevice now (ssdp_uuid udn)
      (stage (ssdp_uuid udn)
         (ssdp_fragment (Ssdp.address r) d udn (_devices c !! ssdp_uuid udn)) c).
Proof.
  unfold ssdp_accepted, onSsdpResponse, ssdp_uuid, Js.loose_ne.
  destruct (Ssdp.statusCode r =? 200)%Z; [|done].
  destruct (Js.truthy (Ssdp.LOCATION r)); [|done]. simpl.
  destruct (Ssdp.document r) as [| |[d'|]]; try done.
  destruct (Js.loose_eq _ _); [|done].
  destruct (Js.truthy (Js.of_option (Dial.friendlyName d'))) eqn:Hfn; [|done].
  simpl. destruct (Dial.UDN d') as [udn'|]; [|done]. simpl.
  destruct (negb (udn' =? "")%string) eqn:Hudn; [|done]. simpl.
  intros [= <- <-].
  by destruct (_devices c !! parseUUID (strip_udn udn')).
Qed.

Lemma onSsdpResponse_rejected now r c :
  ssdp_accepted r = None → state_of (onSsdpResponse now r c) = c.
Proof.
  unfold ssdp_accepted, onSsdpResponse, Js.loose_ne.
  destruct (Ssdp.statusCode r =? 200)%Z; [|done].
  destruct (Js.truthy (Ssdp.LOCATION r)); [|done]. simpl.
  destruct (Ssdp.document r) as [| |[d'|]]; try done.
  destruct (Js.loose_eq _ _); [|done].
  destruct (Js.truthy (Js.of_option (Dial.friendlyName d'))) eqn:Hfn; [|done].
  simpl. destruct (Dial.UDN d') as [udn'|]; [|done]. simpl.
  by destruct (negb (udn' =? "")%string).
Qed.

End handlers.

(** ** Reconciliation *)

Lemma loose_eq_refl a : Js.loose_eq a a = true.
Proof. destruct a; simpl; try done. apply String.eqb_refl. Qed.




Lemma overwrite_same_fields f now o :
  same_fields f o → overwrite f now o = refreshed now o.
Proof.
  intros (H1 & H2 & H3 & H4 & H5). unfold overwrite, refreshed.
  by rewrite H1, H2, H3, H4, H5.
Qed.

Lemma find_device_Some uuid l i o :
  find_device uuid l = Some (i, o) → l !! i = Some o ∧ Device.uuid o = uuid.
Proof. unfold find_device. intros (Hi & Hu & _)%list_find_Some. done. Qed.

Lemma find_device_None uuid l :
  find_device uuid l = None ↔ uuid ∉ (Device.uuid <$> l).
Proof.
  unfold find_device. rewrite list_find_None, Forall_forall, list_elem_of_fmap.
  split.
  - intros Hall (o & Hu & Ho). by apply (Hall o Ho).
  - intros Hnot o Ho Hu. apply Hnot. eauto.
Qed.

Section reconciliation.

Context `{DeviceClass}.



Lemma updateDevice_returns now uuid c f :
  _devices c !! uuid = Some f →
  _updateDevice now uuid c =
    Normal {| _devices := _devices c;
              devices :=
                match find_device uuid (devices c) with
                | Some (i, o) => <[i := overwrite f now o]> (devices c)
                | None =>
                    devices c ++
                    [Device_new uuid (Fragment.discoveryName f)
                       (Fragment.friendlyName f) (Fragment.host f)
                       (Fragment.manufacturer f) (Fragment.modelName f) now]
                end;
              log :=
                log c ++
                match find_device uuid (devices c) with
                | Some (i, o) =>
                    emissions (differs f o) false (differs f o) (overwrite f now o)
                | None =>
                    emissions true true false
                      (Device_new uuid (Fragment.discoveryName f)
                         (Fragment.friendlyName f) (Fragment.host f)
                         (Fragment.manufacturer f) (Fragment.modelName f) now)
                end |}.
Proof.
  intros Hf. unfold _updateDevice, _updateDevice. rewrite Hf.
  by destruct (find_device uuid (devices c)) as [[i o]|].
Qed.

End reconciliation.

(** ** Invariants of the transition system *)

Section invariants.

Context `{DeviceClass}.
Variable cfg : Config.


Lemma forEach_answer_preserves (P : Client → Prop) now address l :
  (∀ a c, a ∈ l → P c → P (state_of (onEachAnswer cfg now address a c))) →
  ∀ c, P c → P (state_of (forEach_answer cfg now address l c)).
Proof.
  induction l as [|a l IH]; intros Hstep c Hc; simpl; [done|].
  pose proof (Hstep a c (list_elem_of_here _ _) Hc) as Ha.
  destruct (onEachAnswer cfg now address a c) as [c'|c']; simpl in *; [|done].
  apply IH; [|done]. intros a' c'' Hin. apply Hstep. by apply list_elem_of_further.
Qed.

Lemma onMdnsResponse_preserves (P : Client → Prop) now address answers additionals :
  (∀ a c, a ∈ answers ++ additionals → P c →
          P (state_of (onEachAnswer cfg now address a c))) →
  ∀ c, P c → P (state_of (onMdnsResponse cfg now address answers additionals c)).
Proof.
  intros Hstep c Hc. unfold onMdnsResponse, onMdnsResponse.
  assert (P (state_of (forEach_answer cfg now address answers c))) as H1.
  { apply forEach_answer_preserves; [|done].
    intros a c' Hin. apply Hstep. apply elem_of_app. by left. }
  destruct (forEach_answer cfg now address answers c) as [c'|c']; simpl in *; [|done].
  apply forEach_answer_preserves; [|done].
  intros a c'' Hin. apply Hstep. apply elem_of_app. by right.
Qed.

Lemma forEach_from_preserves (P : Client → Prop) f :
  (∀ d k c, P c → devices c !! k = Some d → P (f d k c)) →
  ∀ n k c, P c → P (forEach_from n k f c).
Proof.
  intros Hf. induction n as [|n IH]; intros k c Hc; simpl; [done|].
  apply IH. destruct (devices c !! k) eqn:E; [|done]. by apply Hf.
Qed.

(** A property of the state is kept by a callback when staging and
    reconciling what the callback stages keeps it, and evicting a stale
    record keeps it. *)
Lemma step_preserves (P : Client → Prop) (i : input) :
  (∀ now address answers additionals a c u f,
     i = MdnsResponse now address answers additionals →
     a ∈ answers ++ additionals → P c →
     mdns_fragment cfg address a c = Some (u, f) →
     P (state_of (announce_if_ready now u f (stage u f c)))) →
  (∀ now r c d udn,
     i = SsdpResponse now r → P c → ssdp_accepted r = Some (d, udn) →
     P (state_of (_updateDevice now (ssdp_uuid udn)
                    (stage (ssdp_uuid udn)
                       (ssdp_fragment (Ssdp.address r) d udn
                          (_devices c !! ssdp_uuid udn)) c)))) →
  (∀ now d k c,
     i = GcTick now → P c → devices c !! k = Some d → stale cfg now d = true →
     P {| _devices := delete (Js.to_key (Device.name d)) (_devices c);
          devices := delete k (devices c);
          log := log c ++ [Close d; Emit device_offline d] |}) →
  ∀ c, P c → P (step cfg c i).
Proof.
  intros Hm Hs Hg c Hc. destruct i as [now address answers additionals|now r|now];
    simpl.
  - destruct (enabled cfg "mdns_enabled"); [|done].
    apply onMdnsResponse_preserves; [|done]. intros a c' Hin Hc'.
    destruct (mdns_fragment cfg address a c') as [[u f]|] eqn:E.
    + rewrite (onEachAnswer_staged _ _ _ _ _ _ _ E). by eapply Hm.
    + by rewrite onEachAnswer_ignored.
  - destruct (enabled cfg "ssdp_enabled"); [|done].
    destruct (ssdp_accepted r) as [[d udn]|] eqn:E.
    + rewrite (onSsdpResponse_accepted _ _ _ _ _ E). by eapply Hs.
    + by rewrite onSsdpResponse_rejected.
  - destruct (gc_enabled cfg); [|done].
    unfold gc_tick. apply forEach_from_preserves; [|done].
    intros d k c' Hc' Hk. destruct (stale cfg now d) eqn:Hd.
    + rewrite gc_visit_stale by done. by eapply Hg.
    + by rewrite gc_visit_fresh.
Qed.

Lemma run_snoc history i : run cfg (history ++ [i]) = step cfg (run cfg history) i.
Proof. unfold run, run. by rewrite foldl_app. Qed.

Lemma run_app history tail :
  run cfg (history ++ tail) = foldl (step cfg) (run cfg history) tail.
Proof. unfold run, run. by rewrite foldl_app. Qed.

End invariants.

Section registry.

Context `{DeviceClass}.
Variable cfg : Config.



Lemma updateDevice_staged now u c :
  _devices (state_of (_updateDevice now u c)) = _devices c.
Proof.
  unfold _updateDevice, _updateDevice.
  destruct (_devices c !! u); [|done].
  by destruct (find_device u (devices c)) as [[i o]|].
Qed.

Lemma announce_if_ready_cases now u f c :
  announce_if_ready now u f c
  = if Fragment.announceable f then _updateDevice now u c else Normal c.
Proof. done. Qed.

Lemma announce_if_ready_staged now u f c :
  _devices (state_of (announce_if_ready now u f c)) = _devices c.
Proof.
  rewrite announce_if_ready_cases.
  destruct (Fragment.announceable f); [|done]. apply updateDevice_staged.
Qed.

(** *** Uniqueness of identifiers *)

Lemma updateDevice_uuids now u c f :
  _devices c !! u = Some f →
  Device.uuid <$> devices (state_of (_updateDevice now u c))
  = if decide (u ∈ Device.uuid <$> devices c)
    then Device.uuid <$> devices c
    else (Device.uuid <$> devices c) ++ [u].
Proof.
  intros Hf. rewrite (updateDevice_returns _ _ _ _ Hf). simpl.
  destruct (find_device u (devices c)) as [[i o]|] eqn:E.
  - destruct (find_device_Some _ _ _ _ E) as [Hi Hu].
    rewrite decide_True.
    + rewrite list_fmap_insert. simpl. apply list_insert_id.
      by rewrite list_lookup_fmap, Hi.
    + apply list_elem_of_fmap. exists o. split; [done|].
      by eapply list_elem_of_lookup_2.
  - apply find_device_None in E. rewrite decide_False by done.
    by rewrite fmap_app.
Qed.

Lemma updateDevice_NoDup now u c :
  NoDup (Device.uuid <$> devices c) →
  NoDup (Device.uuid <$> devices (state_of (_updateDevice now u c))).
Proof.
  intros Hnd. destruct (_devices c !! u) as [f|] eqn:Hf.
  - rewrite (updateDevice_uuids _ _ _ _ Hf). case_decide; [done|].
    apply NoDup_app. split; [done|]. split; [|apply NoDup_singleton].
    intros x Hx ->%list_elem_of_singleton. done.
  - unfold _updateDevice, _updateDevice. by rewrite Hf.
Qed.

Lemma step_NoDup c i :
  NoDup (Device.uuid <$> devices c) →
  NoDup (Device.uuid <$> devices (step cfg c i)).
Proof.
  apply (step_preserves cfg (λ c, NoDup (Device.uuid <$> devices c))).
  - intros now address answers additionals a c' u f _ _ Hc' _.
    rewrite announce_if_ready_cases.
    destruct (Fragment.announceable f); [|done]. by apply updateDevice_NoDup.
  - intros now r c' d udn _ Hc' _. by apply updateDevice_NoDup.
  - intros now d k c' _ Hc' _ _. simpl. rewrite list_fmap_delete.
    eapply sublist_NoDup; [done|]. apply sublist_delete.
Qed.


(** C10: after any history of mDNS responses, SSDP responses and collector
    ticks the registry holds at most one record per identifier. *)
Theorem registry_unique_identifiers (history : list input) :
  NoDup (Device.uuid <$> devices (run cfg history)).
Proof.
  induction history as [|i history IH] using rev_ind.
  - simpl. apply NoDup_nil_2.
  - rewrite run_snoc. destruct i as [now address answers additionals|now r|now].
    + by apply step_NoDup.
    + by apply step_NoDup.
    + by apply step_NoDup.
Qed.

End registry.

(** ** Kinds of values in reachable states *)

Section kinds.

Context `{DeviceClass}.
Variable cfg : Config.



















End kinds.

(** ** Announceability *)

Section announceability.

Context `{DeviceClass}.
Variable cfg : Config.














End announceability.

(** ** Field precedence *)

Section precedence.

Context `{DeviceClass}.
Variable cfg : Config.

Lemma strip_udn_prefix rest : strip_udn ("uuid:" ++ rest) = strip_udn rest.
Proof. done. Qed.




(** What mDNS records do to the discovery name: a record with a non-empty
    name stages that name. *)
Lemma mdns_fragment_discoveryName address a c u f :
  mdns_fragment cfg address a c = Some (u, f) →
  let n := match a with
           | PTR _ data => data
           | SRV name _ | TXT name _ | OtherRecord _ name => name
           end in
  n ≠ "" → Fragment.discoveryName f = Js.Str n.
Proof.
  assert (∀ n g, n ≠ "" →
            Fragment.discoveryName (set_if (Js.Str n) Fragment.set_discoveryName g)
            = Js.Str n) as Hset.
  { intros n g Hn. unfold set_if. simpl.
    apply String.eqb_neq in Hn. by rewrite Hn. }
  destruct a as [name data|name target|name data|ty name]; simpl; try done.
  - destruct (String.eqb name "_googlecast._tcp.local"); [|done].
    destruct (_devices c !! parseUUID data) as [f0|]; intros [= <- <-] Hn; auto.
  - destruct (_devices c !! parseUUID name) as [f0|]; [|done].
    destruct (srv_host cfg address target); [|done]. intros [= <- <-] Hn. auto.
  - destruct (_devices c !! parseUUID name) as [f0|]; [|done].
    intros [= <- <-] Hn. destruct (_ && _); simpl.
    + unfold set_if at 1. destruct (Js.truthy (txt_friendlyName data)); simpl; auto.
    + unfold set_if at 1. destruct (Js.truthy (txt_friendlyName data)); simpl; auto.
Qed.

End precedence.

Section model_name.

Context `{DeviceClass}.
Variable cfg : Config.







End model_name.

(** ** Re-delivery *)

Lemma fragment_eq (f g : Fragment.t) :
  Fragment.friendlyName f = Fragment.friendlyName g →
  Fragment.host f = Fragment.host g →
  Fragment.uuid f = Fragment.uuid g →
  Fragment.discoveryName f = Fragment.discoveryName g →
  Fragment.manufacturer f = Fragment.manufacturer g →
  Fragment.modelName f = Fragment.modelName g →
  f = g.
Proof. destruct f, g; simpl; congruence. Qed.

Lemma apply_writes_fields w f :
  Fragment.friendlyName (apply_writes w f)
  = (if Js.truthy (w_friendlyName w) then w_friendlyName w
     else Fragment.friendlyName f)
  ∧ Fragment.host (apply_writes w f)
    = (match w_host w with Some h => h | None => Fragment.host f end)
  ∧ Fragment.uuid (apply_writes w f) = Fragment.uuid f
  ∧ Fragment.discoveryName (apply_writes w f)
    = (if Js.truthy (w_discoveryName w) then w_discoveryName w
       else Fragment.discoveryName f)
  ∧ Fragment.manufacturer (apply_writes w f) = Fragment.manufacturer f
  ∧ Fragment.modelName (apply_writes w f)
    = (if Js.truthy (w_modelName w) && negb (Js.truthy (Fragment.modelName f))
       then w_modelName w else Fragment.modelName f).
Proof.
  unfold apply_writes, set_if.
  destruct (w_host w), (Js.truthy (w_discoveryName w)),
    (Js.truthy (w_friendlyName w)), (Js.truthy (w_modelName w));
    simpl; destruct (Js.truthy (Fragment.modelName f)); simpl; done.
Qed.

Lemma apply_writes_idempotent w f :
  apply_writes w (apply_writes w f) = apply_writes w f.
Proof.
  destruct (apply_writes_fields w (apply_writes w f)) as (E1 & E2 & E3 & E4 & E5 & E6).
  destruct (apply_writes_fields w f) as (F1 & F2 & F3 & F4 & F5 & F6).
  apply fragment_eq; try congruence.
  - rewrite E1, F1. by destruct (Js.truthy (w_friendlyName w)).
  - rewrite E2, F2. by destruct (w_host w).
  - rewrite E4, F4. by destruct (Js.truthy (w_discoveryName w)).
  - rewrite E6, F6.
    destruct (Js.truthy (w_modelName w)) eqn:Hw; simpl; [|done].
    destruct (Js.truthy (Fragment.modelName f)) eqn:Hf; simpl.
    + by rewrite Hf.
    + by rewrite Hw.
Qed.

(** Writes that changed nothing change nothing after compatible ones. *)
Lemma apply_writes_absorbed w w' f :
  compatible w w' →
  apply_writes w f = f →
  apply_writes w (apply_writes w' f) = apply_writes w' f.
Proof.
  intros (Cd & Ch & Cf) Habs.
  destruct (apply_writes_fields w (apply_writes w' f)) as (E1 & E2 & E3 & E4 & E5 & E6).
  destruct (apply_writes_fields w' f) as (F1 & F2 & F3 & F4 & F5 & F6).
  destruct (apply_writes_fields w f) as (G1 & G2 & G3 & G4 & G5 & G6).
  rewrite Habs in G1, G2, G4, G6.
  apply fragment_eq; try congruence.
  - rewrite E1, F1. destruct (Js.truthy (w_friendlyName w)) eqn:Hw; [|done].
    destruct (Js.truthy (w_friendlyName w')) eqn:Hw'; [by apply Cf|done].
  - rewrite E2, F2. destruct (w_host w) as [h|]; [|done].
    destruct (w_host w') as [h'|]; [by apply Ch|done].
  - rewrite E4, F4. destruct (Js.truthy (w_discoveryName w)) eqn:Hw; [|done].
    destruct (Js.truthy (w_discoveryName w')) eqn:Hw'; [by apply Cd|done].
  - rewrite E6, F6. destruct (Js.truthy (w_modelName w)) eqn:Hw; [|done].
    simpl in *. destruct (Js.truthy (Fragment.modelName f)) eqn:Hf; simpl in *.
    + rewrite andb_false_r. by rewrite Hf.
    + exfalso. rewrite <- G6 in Hw. congruence.
Qed.

Lemma fresh_fragment_absorbs data :
  apply_writes (mkWrites (Js.Str data) None Js.Undefined Js.Undefined)
    (fresh_fragment (parseUUID data) data)
  = fresh_fragment (parseUUID data) data.
Proof.
  unfold apply_writes, set_if. simpl. by destruct (negb (data =? "")%string).
Qed.

Section redelivery.

Context `{DeviceClass}.
Variable cfg : Config.
Variable address : string.

(** What an answer stages, from what it writes. *)
Lemma mdns_fragment_writes a c :
  mdns_fragment cfg address a c =
    match answer_writes cfg address a with
    | Some (n, w) =>
        match _devices c !! parseUUID n with
        | Some f => Some (parseUUID n, apply_writes w f)
        | None =>
            match a with
            | PTR _ data => Some (parseUUID n, fresh_fragment (parseUUID n) n)
            | _ => None
            end
        end
    | None => None
    end.
Proof.
  destruct a as [name data|name target|name data|ty name]; simpl; try done.
  - destruct (String.eqb name "_googlecast._tcp.local"); [|done].
    by destruct (_devices c !! parseUUID data).
  - destruct (srv_host cfg address target) as [h|]; simpl.
    + by destruct (_devices c !! parseUUID name).
    + by destruct (_devices c !! parseUUID name).
Qed.

Lemma answer_writes_PTR a n w data name :
  answer_writes cfg address a = Some (n, w) → a = PTR name data →
  n = data ∧ w = mkWrites (Js.Str data) None Js.Undefined Js.Undefined.
Proof.
  intros Hw ->. simpl in Hw.
  destruct (String.eqb name "_googlecast._tcp.local"); [|done].
  by injection Hw as <- <-.
Qed.

End redelivery.

Lemma find_device_insert_same u l i o o' :
  find_device u l = Some (i, o) → Device.uuid o' = u →
  find_device u (<[i := o']> l) = Some (i, o').
Proof.
  unfold find_device. intros (Hi & _ & Hleast)%list_find_Some Hu.
  apply list_find_insert_Some. right. left.
  split; [done|]. split; [done|]. split; [by eapply lookup_lt_Some|]. done.
Qed.

Lemma find_device_snoc_new u l o' :
  find_device u l = None → Device.uuid o' = u →
  find_device u (l ++ [o']) = Some (List.length l, o').
Proof.
  unfold find_device. intros Hl Hu. rewrite list_find_app_r by done.
  simpl. by rewrite decide_True.
Qed.

Lemma find_device_insert_other u l i o o' :
  l !! i = Some o → Device.uuid o ≠ u → Device.uuid o' ≠ u →
  find_device u (<[i := o']> l) = find_device u l.
Proof.
  unfold find_device. revert i. induction l as [|x l IH]; intros i; [done|].
  destruct i as [|i]; simpl.
  - intros [= ->] Ho Ho'. by rewrite !decide_False.
  - intros Hi Ho Ho'. case_decide; [done|]. by rewrite (IH i).
Qed.

Lemma find_device_snoc_other u l o' :
  Device.uuid o' ≠ u → find_device u (l ++ [o']) = find_device u l.
Proof.
  unfold find_device. intros Ho'.
  destruct (list_find (λ v, Device.uuid v = u) l) as [[i o]|] eqn:E.
  - by apply list_find_app_l.
  - rewrite list_find_app_r by done. simpl. by rewrite decide_False.
Qed.

Lemma same_fields_not_differs f o : same_fields f o → differs f o = false.
Proof.
  intros (H1 & H2 & H3 & H4 & H5). unfold differs, Js.loose_ne.
  rewrite H1, H2, H3, H4, H5. by rewrite !loose_eq_refl.
Qed.

Lemma same_fields_overwrite f now o : same_fields f (overwrite f now o).
Proof. by repeat split. Qed.

Lemma refreshes_uuid now o o' : refreshes now o o' → Device.uuid o' = Device.uuid o.
Proof. by intros [->| ->]. Qed.

Lemma refreshes_same_fields now f o o' :
  refreshes now o o' → same_fields f o ↔ same_fields f o'.
Proof. by intros [->| ->]. Qed.

Lemma refreshes_refreshed now o o' :
  refreshes now o o' → refreshed now o' = refreshed now o.
Proof. by intros [->| ->]. Qed.

Lemma refreshes_trans now o1 o2 o3 :
  refreshes now o1 o2 → refreshes now o2 o3 → refreshes now o1 o3.
Proof. intros [->| ->] [->| ->]; by (left + right). Qed.

Lemma find_device_refreshes now u l l' :
  Forall2 (refreshes now) l l' →
  match find_device u l with
  | Some (i, o) => ∃ o', find_device u l' = Some (i, o') ∧ refreshes now o o'
  | None => find_device u l' = None
  end.
Proof.
  unfold find_device. induction 1 as [|x y l l' Hxy Hl IH]; [done|].
  simpl. pose proof (refreshes_uuid _ _ _ Hxy) as Hu.
  destruct (decide (Device.uuid x = u)) as [Hx|Hx].
  - rewrite decide_True by congruence. eauto.
  - rewrite decide_False by congruence.
    destruct (list_find (λ v, Device.uuid v = u) l) as [[i o]|]; simpl.
    + destruct IH as (o' & -> & Ho). simpl. eauto.
    + by rewrite IH.
Qed.

Lemma touched_refl now c : touched now c c.
Proof.
  split; [done|]. split; [done|]. apply Forall_Forall2_diag, Forall_forall.
  intros o _. by left.
Qed.

Lemma touched_trans now c1 c2 c3 :
  touched now c1 c2 → touched now c2 c3 → touched now c1 c3.
Proof.
  intros (S1 & L1 & D1) (S2 & L2 & D2). split; [congruence|]. split; [congruence|].
  eapply Forall2_trans; [|done..]. apply refreshes_trans.
Qed.

Section reconciliation_of_records.

Context `{DeviceClass}.

Lemma updateDevice_find_same now u c f :
  _devices c !! u = Some f →
  ∃ i o, find_device u (devices (state_of (_updateDevice now u c))) = Some (i, o)
         ∧ same_fields f o.
Proof.
  intros Hf. rewrite (updateDevice_returns _ _ _ _ Hf). simpl.
  destruct (find_device u (devices c)) as [[i o]|] eqn:E.
  - exists i, (overwrite f now o). split; [|apply same_fields_overwrite].
    apply find_device_insert_same with o; [done|].
    by destruct (find_device_Some _ _ _ _ E).
  - eexists _, _. split; [by apply find_device_snoc_new|]. by repeat split.
Qed.

Lemma updateDevice_find_other now u u' c :
  u ≠ u' →
  find_device u (devices (state_of (_updateDevice now u' c)))
  = find_device u (devices c).
Proof.
  intros Hne. destruct (_devices c !! u') as [f|] eqn:Hf.
  - rewrite (updateDevice_returns _ _ _ _ Hf). simpl.
    destruct (find_device u' (devices c)) as [[i o]|] eqn:E.
    + destruct (find_device_Some _ _ _ _ E) as [Hi Hu].
      apply find_device_insert_other with o; [done|congruence|simpl; congruence].
    + apply find_device_snoc_other. simpl. congruence.
  - unfold _updateDevice. by rewrite Hf.
Qed.

(** A reconciliation with nothing to change refreshes [lastSeen] only. *)
Lemma updateDevice_quiet now u c f i o :
  _devices c !! u = Some f →
  find_device u (devices c) = Some (i, o) → same_fields f o →
  _updateDevice now u c =
    Normal {| _devices := _devices c;
              devices := <[i := refreshed now o]> (devices c);
              log := log c |}.
Proof.
  intros Hf Hfind Hs. rewrite (updateDevice_returns _ _ _ _ Hf), Hfind.
  rewrite (same_fields_not_differs _ _ Hs), (overwrite_same_fields _ _ _ Hs).
  unfold emissions. simpl. by rewrite app_nil_r.
Qed.

Lemma touched_refresh now c i o :
  devices c !! i = Some o →
  touched now c {| _devices := _devices c;
                   devices := <[i := refreshed now o]> (devices c);
                   log := log c |}.
Proof.
  intros Hi. split; [done|]. split; [done|]. simpl.
  rewrite <- (list_insert_id (devices c) i o) at 1 by done.
  apply Forall2_insert; [|by right].
  apply Forall_Forall2_diag, Forall_forall. intros x _. by left.
Qed.

End reconciliation_of_records.

Section quiet_answers.

Context `{DeviceClass}.
Variable cfg : Config.
Variable address : string.
Hypothesis strategy : strategy_is_string cfg.

Lemma srv_host_total target : is_Some (srv_host cfg address target).
Proof.
  destruct strategy as [s Hs]. unfold srv_host. rewrite Hs.
  by destruct (String.eqb _ _).
Qed.

Lemma stage_staged u f c : _devices c !! u = Some f → stage u f c = c.
Proof.
  intros Hf. unfold stage. rewrite insert_id by done. by destruct c.
Qed.

Lemma updateDevice_staged_Normal now u f c :
  ∃ c', _updateDevice now u (stage u f c) = Normal c'.
Proof.
  rewrite (updateDevice_returns now u (stage u f c) f); [eauto|].
  simpl. apply lookup_insert_eq.
Qed.

(** With a string for strategy no answer throws. *)
Lemma onEachAnswer_returns now a c :
  ∃ c', onEachAnswer cfg now address a c = Normal c'.
Proof.
  destruct (mdns_fragment cfg address a c) as [[u f]|] eqn:E.
  - rewrite (onEachAnswer_staged _ _ _ _ _ _ _ E), announce_if_ready_cases.
    destruct (Fragment.announceable f); [|eauto].
    apply updateDevice_staged_Normal.
  - destruct a as [name data|name target|name data|ty name]; simpl in *; eauto.
    + destruct (String.eqb name "_googlecast._tcp.local"); [|eauto].
      by destruct (_devices c !! parseUUID data).
    + destruct (_devices c !! parseUUID name); [|eauto].
      destruct (srv_host_total target) as [h Hh]. by rewrite Hh in E.
    + destruct (_devices c !! parseUUID name) eqn:E2; [discriminate|eauto].
Qed.

Lemma forEach_answer_returns now l c :
  ∃ c', forEach_answer cfg now address l c = Normal c'.
Proof.
  revert c. induction l as [|a l IH]; intros c; simpl; [eauto|].
  destruct (onEachAnswer_returns now a c) as [c' ->]. apply IH.
Qed.

Lemma mdns_fragment_staging a c c' :
  _devices c' = _devices c →
  mdns_fragment cfg address a c' = mdns_fragment cfg address a c.
Proof. intros Hs. by rewrite !mdns_fragment_writes, Hs. Qed.

Lemma synced_touched now u f c c' :
  touched now c c' → synced u f c → synced u f c'.
Proof.
  intros (_ & _ & Hd) Hs Hann. destruct (Hs Hann) as (i & o & Hfind & Hsame).
  pose proof (find_device_refreshes now u _ _ Hd) as Hr. rewrite Hfind in Hr.
  destruct Hr as (o' & Hfind' & Hoo'). exists i, o'. split; [done|].
  by apply (refreshes_same_fields now f o o').
Qed.

Lemma quiet_touched now a c c' :
  touched now c c' → quiet cfg address a c → quiet cfg address a c'.
Proof.
  intros Ht. unfold quiet. rewrite (mdns_fragment_staging a c c') by apply Ht.
  destruct (mdns_fragment cfg address a c) as [[u f]|]; [|done].
  intros [Hs Hsync]. split; [by rewrite (proj1 Ht)|].
  by eapply synced_touched.
Qed.

(** A quiet answer only refreshes [lastSeen], and does so when the
    fragment is announceable. *)
Lemma quiet_step now a c :
  quiet cfg address a c →
  ∃ c', onEachAnswer cfg now address a c = Normal c'
    ∧ touched now c c'
    ∧ ∀ u f, mdns_fragment cfg address a c = Some (u, f) →
             Fragment.announceable f = true →
             ∃ i o, find_device u (devices c) = Some (i, o)
                    ∧ devices c' !! i = Some (refreshed now o).
Proof.
  unfold quiet. destruct (mdns_fragment cfg address a c) as [[u f]|] eqn:E.
  - intros [Hs Hsync].
    rewrite (onEachAnswer_staged _ _ _ _ _ _ _ E), announce_if_ready_cases.
    rewrite (stage_staged _ _ _ Hs).
    destruct (Fragment.announceable f) eqn:Hann.
    + destruct (Hsync Hann) as (i & o & Hfind & Hsame).
      destruct (find_device_Some _ _ _ _ Hfind) as [Hi _].
      rewrite (updateDevice_quiet _ _ _ _ _ _ Hs Hfind Hsame).
      eexists. split; [done|]. split; [by apply touched_refresh|].
      intros u' f' [= <- <-] _. exists i, o. split; [done|]. simpl.
      apply list_lookup_insert_eq. by eapply lookup_lt_Some.
    + eexists. split; [done|]. split; [apply touched_refl|].
      intros u' f' [= <- <-]. by rewrite Hann.
  - intros _. destruct (onEachAnswer_returns now a c) as [c' Hc'].
    pose proof (onEachAnswer_ignored cfg now address a c E) as Hig.
    rewrite Hc' in Hig. simpl in Hig. subst c'.
    exists c. split; [done|]. split; [apply touched_refl|]. done.
Qed.

(** Re-delivering answers that are all quiet only refreshes [lastSeen]. *)
Lemma quiet_pass now l c :
  (∀ a, a ∈ l → quiet cfg address a c) →
  ∃ c', forEach_answer cfg now address l c = Normal c'
    ∧ touched now c c'
    ∧ ∀ a u f, a ∈ l → mdns_fragment cfg address a c = Some (u, f) →
               Fragment.announceable f = true →
               ∃ i o, find_device u (devices c) = Some (i, o)
                      ∧ devices c' !! i = Some (refreshed now o).
Proof.
  revert c. induction l as [|a l IH]; intros c Hq; simpl.
  - exists c. split; [done|]. split; [apply touched_refl|].
    intros a u f Ha. by apply not_elem_of_nil in Ha.
  - destruct (quiet_step now a c (Hq a (list_elem_of_here _ _)))
      as (c1 & -> & Ht1 & Hr1).
    destruct (IH c1) as (c' & Hc' & Ht' & Hr').
    { intros b Hb. apply (quiet_touched now b c c1 Ht1), Hq.
      by apply list_elem_of_further. }
    exists c'. split; [done|]. split; [by eapply touched_trans|].
    intros b u f Hb Hfrag Hann.
    apply elem_of_cons in Hb as [->|Hb].
    + destruct (Hr1 u f Hfrag Hann) as (i & o & Hfind & Hi).
      exists i, o. split; [done|].
      destruct Ht' as (_ & _ & Hd).
      destruct (Forall2_lookup_l _ _ _ _ _ Hd Hi) as (o' & Hi' & Hoo').
      rewrite Hi'. by destruct Hoo' as [->| ->].
    + rewrite <- (mdns_fragment_staging b c c1) in Hfrag by apply Ht1.
      destruct (Hr' b u f Hb Hfrag Hann) as (i & o1 & Hfind1 & Hi').
      pose proof (find_device_refreshes now u _ _ (proj2 (proj2 Ht1))) as Hr.
      destruct (find_device u (devices c)) as [[j o]|] eqn:Hfind.
      * destruct Hr as (o1' & Hfind1' & Hoo1). rewrite Hfind1 in Hfind1'.
        injection Hfind1' as <- <-. exists i, o. split; [done|].
        by rewrite Hi', (refreshes_refreshed now o o1).
      * congruence.
Qed.

End quiet_answers.

Section settling.

Context `{DeviceClass}.
Variable cfg : Config.
Variable address : string.

Lemma settled_quiet a c u f :
  settled cfg address a c u f → quiet cfg address a c.
Proof. intros (E & Hs & Hsync). unfold quiet. by rewrite E. Qed.

Lemma announce_if_ready_synced now u f c :
  synced u f (state_of (announce_if_ready now u f (stage u f c))).
Proof.
  intros Hann. rewrite announce_if_ready_cases, Hann.
  apply updateDevice_find_same. simpl. apply lookup_insert_eq.
Qed.

Lemma announce_if_ready_find_other now u u' f c :
  u ≠ u' →
  find_device u (devices (state_of (announce_if_ready now u' f (stage u' f c))))
  = find_device u (devices c).
Proof.
  intros Hne. rewrite announce_if_ready_cases.
  destruct (Fragment.announceable f); [|done].
  by rewrite updateDevice_find_other.
Qed.

(** Once processed, an answer is settled. *)
Lemma settled_after_own now a c u f :
  mdns_fragment cfg address a c = Some (u, f) →
  settled cfg address a (state_of (onEachAnswer cfg now address a c)) u f.
Proof.
  intros E. rewrite (onEachAnswer_staged _ _ _ _ _ _ _ E).
  set (c' := state_of (announce_if_ready now u f (stage u f c))).
  assert (_devices c' !! u = Some f) as Hs.
  { subst c'. rewrite announce_if_ready_staged. simpl. apply lookup_insert_eq. }
  split; [|split; [done|apply announce_if_ready_synced]].
  rewrite mdns_fragment_writes in E |- *.
  destruct (answer_writes cfg address a) as [[n w]|] eqn:Hw; [|done].
  destruct (_devices c !! parseUUID n) as [f0|] eqn:Hf0.
  - injection E as <- <-. rewrite Hs. by rewrite apply_writes_idempotent.
  - destruct a as [name data| | |]; try done. injection E as <- <-.
    rewrite Hs. destruct (answer_writes_PTR cfg address _ _ _ _ _ Hw eq_refl)
      as [-> ->].
    by rewrite fresh_fragment_absorbs.
Qed.

(** A settled answer stays settled when a compatible answer is
    processed. *)
Lemma settled_stable now a b c u f :
  (∀ n w n' w', answer_writes cfg address a = Some (n, w) →
                answer_writes cfg address b = Some (n', w') →
                parseUUID n = parseUUID n' → compatible w w') →
  settled cfg address a c u f →
  ∃ f', settled cfg address a (state_of (onEachAnswer cfg now address b c)) u f'.
Proof.
  intros Hcompat (Ea & Hs & Hsync).
  destruct (mdns_fragment cfg address b c) as [[ub fb]|] eqn:Eb.
  - rewrite (onEachAnswer_staged _ _ _ _ _ _ _ Eb).
    set (c' := state_of (announce_if_ready now ub fb (stage ub fb c))).
    assert (_devices c' = <[ub := fb]> (_devices c)) as Hs'
      by (subst c'; by rewrite announce_if_ready_staged).
    rewrite mdns_fragment_writes in Ea, Eb.
    destruct (answer_writes cfg address a) as [[n w]|] eqn:Hwa; [|done].
    destruct (answer_writes cfg address b) as [[n' w']|] eqn:Hwb; [|done].
    assert (u = parseUUID n ∧ apply_writes w f = f) as [-> Habs].
    { destruct (_devices c !! parseUUID n) as [f0|] eqn:Hf0.
      - injection Ea as <- Hf. rewrite Hs in Hf0. by injection Hf0 as <-.
      - destruct a; try done. injection Ea as <- _. congruence. }
    destruct (decide (parseUUID n' = parseUUID n)) as [Hu|Hu].
    + rewrite Hu, Hs in Eb. injection Eb as <- <-.
      exists (apply_writes w' f). split; [|split].
      * rewrite mdns_fragment_writes, Hwa, Hs', lookup_insert_eq.
        rewrite apply_writes_absorbed; [done| |done].
        by eapply Hcompat.
      * by rewrite Hs', lookup_insert_eq.
      * apply announce_if_ready_synced.
    + assert (ub = parseUUID n') as ->.
      { destruct (_devices c !! parseUUID n'); [by injection Eb as <- _|].
        destruct b; try done. by injection Eb as <- _. }
      exists f. split; [|split].
      * rewrite mdns_fragment_writes, Hwa, Hs', lookup_insert_ne, Hs by done.
        by rewrite Habs.
      * by rewrite Hs', lookup_insert_ne.
      * intros Hann. subst c'. rewrite announce_if_ready_find_other by done.
        by apply Hsync.
  - rewrite onEachAnswer_ignored by done. exists f. by split.
Qed.

End settling.

Lemma ssdp_merge_fields dn fn h m md f :
  let g := ssdp_merge dn fn h m md f in
  Fragment.friendlyName g
  = (if Js.truthy fn then fn else Fragment.friendlyName f)
  ∧ Fragment.host g = (if Js.truthy h then h else Fragment.host f)
  ∧ Fragment.uuid g = Fragment.uuid f
  ∧ Fragment.discoveryName g
    = (if Js.truthy dn && negb (Js.truthy (Fragment.discoveryName f)) then dn
       else Fragment.discoveryName f)
  ∧ Fragment.manufacturer g = (if Js.truthy m then m else Fragment.manufacturer f)
  ∧ Fragment.modelName g = (if Js.truthy md then md else Fragment.modelName f).
Proof.
  unfold ssdp_merge, set_if.
  destruct (Js.truthy dn), (Js.truthy (Fragment.discoveryName f)),
    (Js.truthy fn), (Js.truthy h), (Js.truthy m), (Js.truthy md); simpl; done.
Qed.

Lemma synthesized_name_truthy udn : Js.truthy (Js.Str (synthesized_name udn)) = true.
Proof. done. Qed.

(** Merging the same description a second time changes nothing. *)
Lemma ssdp_fragment_absorbed address d udn old :
  ssdp_fragment address d udn (Some (ssdp_fragment address d udn old))
  = ssdp_fragment address d udn old.
Proof.
  set (f := ssdp_fragment address d udn old).
  assert (Js.truthy (Fragment.discoveryName f) = true
          ∧ (Js.truthy (Js.of_option (Dial.friendlyName d)) = true →
             Fragment.friendlyName f = Js.of_option (Dial.friendlyName d))
          ∧ (Js.truthy (Js.Str address) = true → Fragment.host f = Js.Str address)
          ∧ (Js.truthy (Js.of_option (Dial.manufacturer d)) = true →
             Fragment.manufacturer f = Js.of_option (Dial.manufacturer d))
          ∧ (Js.truthy (Js.of_option (Dial.modelName d)) = true →
             Fragment.modelName f = Js.of_option (Dial.modelName d)))
    as (Hdn & Hfn & Hh & Hm & Hmd).
  { subst f. destruct old as [f0|]; [|done]. simpl.
    destruct (ssdp_merge_fields (Js.Str (synthesized_name udn))
                (Js.of_option (Dial.friendlyName d)) (Js.Str address)
                (Js.of_option (Dial.manufacturer d))
                (Js.of_option (Dial.modelName d)) f0)
      as (E1 & E2 & E3 & E4 & E5 & E6).
    rewrite E1, E2, E4, E5, E6. rewrite synthesized_name_truthy. simpl.
    split; [by destruct (Js.truthy (Fragment.discoveryName f0)) eqn:E|].
    repeat split; by intros ->. }
  simpl.
  destruct (ssdp_merge_fields (Js.Str (synthesized_name udn))
              (Js.of_option (Dial.friendlyName d)) (Js.Str address)
              (Js.of_option (Dial.manufacturer d))
              (Js.of_option (Dial.modelName d)) f)
    as (E1 & E2 & E3 & E4 & E5 & E6).
  apply fragment_eq; try done.
  - rewrite E1. destruct (Js.truthy (Js.of_option (Dial.friendlyName d)));
      [symmetry; by apply Hfn|done].
  - rewrite E2. destruct (Js.truthy (Js.Str address));
      [symmetry; by apply Hh|done].
  - rewrite E4, Hdn. by rewrite andb_false_r.
  - rewrite E5. destruct (Js.truthy (Js.of_option (Dial.manufacturer d)));
      [symmetry; by apply Hm|done].
  - rewrite E6. destruct (Js.truthy (Js.of_option (Dial.modelName d)));
      [symmetry; by apply Hmd|done].
Qed.

Section triple.

Context `{DeviceClass}.
Variable cfg : Config.
Variable address : string.
Hypothesis strategy : strategy_is_string cfg.

Lemma onMdnsResponse_app now answers additionals c :
  onMdnsResponse cfg now address answers additionals c
  = forEach_answer cfg now address (answers ++ additionals) c.
Proof.
  unfold onMdnsResponse. revert c.
  induction answers as [|a answers IH]; intros c; simpl.
  - by destruct (forEach_answer cfg now address additionals c).
  - destruct (onEachAnswer cfg now address a c) as [c'|c']; [apply IH|done].
Qed.

(** Records of different kinds under one name never disagree. *)
Lemma compatible_kinds a b n w n' w' :
  answer_writes cfg address a = Some (n, w) →
  answer_writes cfg address b = Some (n', w') →
  n = n' →
  match a, b with
  | PTR _ _, PTR _ _ | SRV _ _, SRV _ _ | TXT _ _, TXT _ _ => False
  | _, _ => True
  end →
  compatible w w'.
Proof.
  destruct a as [an ad|an at_|an ad|? ?], b as [bn bd|bn bt|bn bd|? ?];
    simpl; try done.
  all: repeat match goal with
         | |- context [String.eqb ?x ?y] => destruct (String.eqb x y)
         | |- context [srv_host ?c ?a ?t] => destruct (srv_host c a t)
         end; simpl; try done.
  all: intros [= <- <-] [= <- <-] -> _; repeat split; simpl; done.
Qed.

Lemma compatible_refl w : compatible w w.
Proof. by repeat split; intros; simplify_eq. Qed.

Lemma staged_kept now a c u :
  is_Some (_devices c !! u) →
  is_Some (_devices (state_of (onEachAnswer cfg now address a c)) !! u).
Proof.
  intros Hu. destruct (mdns_fragment cfg address a c) as [[ub fb]|] eqn:E.
  - rewrite (onEachAnswer_staged _ _ _ _ _ _ _ E), announce_if_ready_staged.
    simpl. rewrite lookup_insert. by case_decide.
  - by rewrite onEachAnswer_ignored.
Qed.

(** A settled answer stays settled through the rest of a response it is
    compatible with. *)
Lemma settled_stable_pass now a l c u f :
  (∀ b n w n' w', b ∈ l →
     answer_writes cfg address a = Some (n, w) →
     answer_writes cfg address b = Some (n', w') →
     parseUUID n = parseUUID n' → compatible w w') →
  settled cfg address a c u f →
  ∃ f', settled cfg address a (state_of (forEach_answer cfg now address l c)) u f'.
Proof.
  revert c f. induction l as [|b l IH]; intros c f Hcompat Hs; simpl; [eauto|].
  destruct (onEachAnswer_returns cfg address strategy now b c) as [c' Hc'].
  rewrite Hc'.
  destruct (settled_stable cfg address now a b c u f) as [f' Hf']; [|done|].
  { intros n w n' w'. apply Hcompat. apply list_elem_of_here. }
  rewrite Hc' in Hf'. simpl in Hf'. apply (IH c' f'); [|done].
  intros b' n w n' w' Hb'. apply Hcompat. by apply list_elem_of_further.
Qed.

(** After one delivery of compatible answers about devices that were
    staged before, each of the answers is quiet. *)
Lemma staged_pass_quiet now l c :
  (∀ a b n w n' w', a ∈ l → b ∈ l →
     answer_writes cfg address a = Some (n, w) →
     answer_writes cfg address b = Some (n', w') →
     parseUUID n = parseUUID n' → compatible w w') →
  (∀ a n w, a ∈ l → answer_writes cfg address a = Some (n, w) →
            is_Some (_devices c !! parseUUID n)) →
  ∀ a, a ∈ l → quiet cfg address a (state_of (forEach_answer cfg now address l c)).
Proof.
  revert c. induction l as [|a0 l IH]; intros c Hcompat Hstaged a Ha.
  - by apply not_elem_of_nil in Ha.
  - simpl.
    destruct (onEachAnswer_returns cfg address strategy now a0 c) as [c' Hc'].
    rewrite Hc'.
    assert (c' = state_of (onEachAnswer cfg now address a0 c)) as Ec'
      by (by rewrite Hc').
    apply elem_of_cons in Ha as [->|Ha].
    + destruct (answer_writes cfg address a0) as [[n w]|] eqn:Hw.
      * destruct (Hstaged a0 n w (list_elem_of_here _ _) Hw) as [f0 Hf0].
        assert (mdns_fragment cfg address a0 c
                = Some (parseUUID n, apply_writes w f0)) as E
          by (by rewrite mdns_fragment_writes, Hw, Hf0).
        pose proof (settled_after_own cfg address now a0 c _ _ E) as Hs.
        rewrite <- Ec' in Hs.
        destruct (settled_stable_pass now a0 l c' (parseUUID n) (apply_writes w f0))
          as [f' Hf']; [|done|by eapply settled_quiet].
        intros b n1 w1 n2 w2 Hb. apply Hcompat; [apply list_elem_of_here|].
        by apply list_elem_of_further.
      * unfold quiet. by rewrite mdns_fragment_writes, Hw.
    + apply IH; [| |done].
      * intros a1 b n1 w1 n2 w2 Ha1 Hb.
        apply Hcompat; by apply list_elem_of_further.
      * intros a1 n1 w1 Ha1 Hw1. rewrite Ec'. apply staged_kept.
        apply (Hstaged a1 n1 w1); [by apply list_elem_of_further|done].
Qed.

Lemma ignored_pass now l c :
  (∀ a, a ∈ l → mdns_fragment cfg address a c = None) →
  forEach_answer cfg now address l c = Normal c.
Proof.
  induction l as [|a l IH]; intros Hl; simpl; [done|].
  destruct (onEachAnswer_returns cfg address strategy now a c) as [c' Hc'].
  pose proof (onEachAnswer_ignored cfg now address a c
                (Hl a (list_elem_of_here _ _))) as Hig.
  rewrite Hc' in Hig |- *. simpl in Hig. subst c'.
  apply IH. intros b Hb. apply Hl. by apply list_elem_of_further.
Qed.

(** After one delivery of a PTR record followed by SRV and TXT records
    under the name the PTR record points to, each of them is quiet. *)
Lemma ptr_led_quiet now name n rest c :
  (∀ a, a ∈ rest → (∃ t, a = SRV n t) ∨ (∃ d, a = TXT n d)) →
  (∀ a b n1 w1 n2 w2, a ∈ rest → b ∈ rest →
     answer_writes cfg address a = Some (n1, w1) →
     answer_writes cfg address b = Some (n2, w2) →
     parseUUID n1 = parseUUID n2 → compatible w1 w2) →
  ∀ a, a ∈ PTR name n :: rest →
       quiet cfg address a
         (state_of (forEach_answer cfg now address (PTR name n :: rest) c)).
Proof.
  intros Hrest Hcompat.
  set (P := PTR name n).
  assert (∀ a n1 w1, a ∈ rest → answer_writes cfg address a = Some (n1, w1) →
            n1 = n) as Hname.
  { intros a n1 w1 Ha. destruct (Hrest a Ha) as [[t ->]|[d ->]]; simpl.
    - destruct (srv_host cfg address t); [|done]. by intros [= <- _].
    - by intros [= <- _]. }
  assert (∀ c0, is_Some (_devices c0 !! parseUUID n) →
            ∀ a, a ∈ rest →
                 quiet cfg address a
                   (state_of (forEach_answer cfg now address rest c0))) as Hlater.
  { intros c0 Hc0. apply staged_pass_quiet; [done|].
    intros a n1 w1 Ha Hw. by rewrite (Hname a n1 w1 Ha Hw). }
  cbn [forEach_answer].
  destruct (onEachAnswer_returns cfg address strategy now P c) as [cP HP].
  rewrite HP.
  assert (cP = state_of (onEachAnswer cfg now address P c)) as EP by (by rewrite HP).
  destruct (mdns_fragment cfg address P c) as [[u f]|] eqn:E.
  - (* the PTR record is processed: the fragment is staged from then on *)
    pose proof (settled_after_own cfg address now P c u f E) as HsP.
    rewrite <- EP in HsP.
    assert (u = parseUUID n) as ->.
    { rewrite mdns_fragment_writes in E. simpl in E.
      destruct (String.eqb name "_googlecast._tcp.local"); [|done].
      destruct (_devices c !! parseUUID n); by injection E as <- _. }
    intros a [->|Ha]%elem_of_cons.
    + destruct (settled_stable_pass now P rest cP (parseUUID n) f)
        as [f' Hf']; [|done|by eapply settled_quiet].
      intros b n1 w1 n2 w2 Hb Hw1 Hw2 _.
      apply (compatible_kinds P b n1 w1 n2 w2 Hw1 Hw2).
      * rewrite (Hname b n2 w2 Hb Hw2). simpl in Hw1.
        destruct (String.eqb name "_googlecast._tcp.local"); [|done].
        by injection Hw1 as <- _.
      * by destruct (Hrest b Hb) as [[t ->]|[d ->]].
    + apply Hlater; [|done]. destruct HsP as (_ & Hs & _). by rewrite Hs.
  - (* the PTR record is not for the service: it is never processed *)
    assert (cP = c) as -> by (by rewrite EP, onEachAnswer_ignored).
    assert (∀ c0, mdns_fragment cfg address P c0 = None) as HP0.
    { intros c0. rewrite mdns_fragment_writes in E |- *. simpl in *.
      destruct (String.eqb name "_googlecast._tcp.local"); [|done].
      by destruct (_devices c !! parseUUID n). }
    destruct (_devices c !! parseUUID n) as [f0|] eqn:Hf0.
    + intros a [->|Ha]%elem_of_cons.
      * unfold quiet. by rewrite HP0.
      * apply Hlater; [by rewrite Hf0|done].
    + assert (∀ a, a ∈ rest → mdns_fragment cfg address a c = None) as Hdead.
      { intros a Ha. rewrite mdns_fragment_writes.
        destruct (answer_writes cfg address a) as [[n1 w1]|] eqn:Hw; [|done].
        rewrite (Hname a n1 w1 Ha Hw), Hf0.
        by destruct (Hrest a Ha) as [[t ->]|[d ->]]. }
      rewrite (ignored_pass now rest c Hdead). simpl.
      intros a [->|Ha]%elem_of_cons; unfold quiet.
      * by rewrite HP0.
      * by rewrite Hdead.
Qed.

Lemma mdns_fragment_SRV n target c f :
  _devices c !! parseUUID n = Some f →
  ∃ f', mdns_fragment cfg address (SRV n target) c = Some (parseUUID n, f').
Proof.
  intros Hf. simpl. rewrite Hf.
  destruct (srv_host_total cfg address strategy target) as [h ->]. eauto.
Qed.

(** One SRV and one TXT record under one name, in either order. *)
Lemma srv_txt_compatible n target txt rest :
  rest ≡ₚ [SRV n target; TXT n txt] →
  (∀ a, a ∈ rest → (∃ t, a = SRV n t) ∨ (∃ d, a = TXT n d))
  ∧ (∀ a b n1 w1 n2 w2, a ∈ rest → b ∈ rest →
       answer_writes cfg address a = Some (n1, w1) →
       answer_writes cfg address b = Some (n2, w2) →
       parseUUID n1 = parseUUID n2 → compatible w1 w2).
Proof.
  intros Hperm.
  assert (∀ a, a ∈ rest → a = SRV n target ∨ a = TXT n txt) as Hin.
  { intros a. rewrite Hperm, !elem_of_cons, elem_of_nil. tauto. }
  split.
  - intros a Ha. destruct (Hin a Ha) as [->| ->]; eauto.
  - intros a b n1 w1 n2 w2 Ha Hb Hw1 Hw2 _.
    destruct (Hin a Ha) as [->| ->], (Hin b Hb) as [->| ->].
    + rewrite Hw1 in Hw2. injection Hw2 as <- <-. apply compatible_refl.
    + apply (compatible_kinds _ _ _ _ _ _ Hw1 Hw2); [|done].
      simpl in Hw1, Hw2. destruct (srv_host cfg address target); [|done].
      injection Hw1 as <- _. by injection Hw2 as <- _.
    + apply (compatible_kinds _ _ _ _ _ _ Hw1 Hw2); [|done].
      simpl in Hw1, Hw2. destruct (srv_host cfg address target); [|done].
      injection Hw1 as <- _. by injection Hw2 as <- _.
    + rewrite Hw1 in Hw2. injection Hw2 as <- <-. apply compatible_refl.
Qed.

End triple.

Section redelivered.

Context `{DeviceClass}.

(** An SSDP response delivered again only refreshes [lastSeen] of the
    record of its identifier. *)
Lemma ssdp_redelivery now1 now2 r c :
  let c1 := state_of (onSsdpResponse now1 r c) in
  let c2 := state_of (onSsdpResponse now2 r c1) in
  touched now2 c1 c2
  ∧ ∀ d udn, ssdp_accepted r = Some (d, udn) →
      ∃ i o, find_device (ssdp_uuid udn) (devices c1) = Some (i, o)
             ∧ devices c2 !! i = Some (refreshed now2 o).
Proof.
  intros c1 c2. destruct (ssdp_accepted r) as [[d udn]|] eqn:Hacc.
  - set (u := ssdp_uuid udn).
    set (f := ssdp_fragment (Ssdp.address r) d udn (_devices c !! u)).
    assert (c1 = state_of (_updateDevice now1 u (stage u f c))) as Hc1
      by (subst c1; by rewrite (onSsdpResponse_accepted _ _ _ _ _ Hacc)).
    assert (_devices c1 !! u = Some f) as Hs.
    { rewrite Hc1, updateDevice_staged. simpl. apply lookup_insert_eq. }
    destruct (updateDevice_find_same now1 u (stage u f c) f) as (i & o & Hfind & Hsame).
    { simpl. apply lookup_insert_eq. }
    rewrite <- Hc1 in Hfind.
    assert (c2 = {| _devices := _devices c1;
                    devices := <[i := refreshed now2 o]> (devices c1);
                    log := log c1 |}) as ->.
    { subst c2. rewrite (onSsdpResponse_accepted _ _ _ _ _ Hacc). fold u.
      rewrite Hs. subst f. rewrite ssdp_fragment_absorbed.
      rewrite (stage_staged _ _ _ Hs).
      by rewrite (updateDevice_quiet _ _ _ _ _ _ Hs Hfind Hsame). }
    destruct (find_device_Some _ _ _ _ Hfind) as [Hi _].
    split; [by apply touched_refresh|].
    intros d' udn' [= <- <-]. exists i, o. split; [done|]. simpl.
    apply list_lookup_insert_eq. by eapply lookup_lt_Some.
  - assert (c1 = c) as Hc1 by (subst c1; by apply onSsdpResponse_rejected).
    assert (c2 = c1) as -> by (subst c2; by apply onSsdpResponse_rejected).
    split; [apply touched_refl|done].
Qed.

(** C8, as the code has it: delivering again an SSDP response, or an mDNS
    response whose records are a PTR record followed by an SRV and a TXT
    record under the name the PTR record points to, changes nothing in
    the staging table, emits no event and leaves every record of the
    registry as it was but for [lastSeen]; the record of the device is
    refreshed whenever its staged fragment is announceable, and on every
    accepted SSDP response. *)
Theorem redelivery_changes_nothing :
  (∀ cfg address now1 now2 name n target txt rest answers additionals c,
     strategy_is_string cfg →
     answers ++ additionals = PTR name n :: rest →
     rest ≡ₚ [SRV n target; TXT n txt] →
     let c1 := state_of (onMdnsResponse cfg now1 address answers additionals c) in
     let c2 := state_of (onMdnsResponse cfg now2 address answers additionals c1) in
     touched now2 c1 c2
     ∧ ∀ f, _devices c1 !! parseUUID n = Some f →
            Fragment.announceable f = true →
            ∃ i o, find_device (parseUUID n) (devices c1) = Some (i, o)
                   ∧ devices c2 !! i = Some (refreshed now2 o))
  ∧ (∀ now1 now2 r c,
       let c1 := state_of (onSsdpResponse now1 r c) in
       let c2 := state_of (onSsdpResponse now2 r c1) in
       touched now2 c1 c2
       ∧ ∀ d udn, ssdp_accepted r = Some (d, udn) →
           ∃ i o, find_device (ssdp_uuid udn) (devices c1) = Some (i, o)
                  ∧ devices c2 !! i = Some (refreshed now2 o)).
Proof.
  split; [|apply ssdp_redelivery].
  intros cfg address now1 now2 name n target txt rest answers additionals c
    Hstr Hl Hperm c1 c2.
  subst c1 c2. rewrite !onMdnsResponse_app, Hl.
  destruct (srv_txt_compatible cfg address n target txt rest Hperm)
    as [Hrest Hcompat].
  pose proof (ptr_led_quiet cfg address Hstr now1 name n rest c Hrest Hcompat)
    as Hq.
  set (l := PTR name n :: rest) in *.
  set (c1 := state_of (forEach_answer cfg now1 address l c)) in *.
  clearbody c1.
  destruct (quiet_pass cfg address Hstr now2 l c1 Hq) as (c2 & Hc2 & Ht & Hr).
  rewrite Hc2. simpl. split; [done|]. intros f Hf Hann.
  assert (SRV n target ∈ l) as Hin.
  { subst l. apply list_elem_of_further. rewrite Hperm. apply list_elem_of_here. }
  apply (Hr (SRV n target) (parseUUID n) f); [done| |done].
  pose proof (Hq _ Hin) as Hqs.
  destruct (mdns_fragment_SRV cfg address Hstr n target c1 f Hf) as [f' E].
  unfold quiet in Hqs. rewrite E in Hqs |- *. destruct Hqs as [Hqs _].
  congruence.
Qed.

End redelivered.

(** C8 as stated fails: a PTR, SRV and TXT sequence whose PTR target and
    SRV name differ by the final dot makes the device known, and delivered
    again it emits [device_updated] twice. *)
Lemma redelivery_emits_updated :
  let cfg := constructor ∅ in
  let c1 := state_of (onMdnsResponse (H := storing_last_seen) cfg 1000 "10.0.0.5"
                        disagreeing_answers [] initial) in
  let c2 := state_of (onMdnsResponse (H := storing_last_seen) cfg 1001 "10.0.0.5"
                        disagreeing_answers [] c1) in
  (Device.uuid <$> devices c1) = [kitchen_uuid]
  ∧ (Fragment.announceable <$> _devices c1 !! kitchen_uuid) = Some true
  ∧ List.length (emitted device_updated (log c1)) = 0
  ∧ List.length (emitted device_updated (log c2)) = 2
  ∧ ¬ touched 1001 c1 c2.
Proof.
  intros cfg c1 c2.
  split; [by vm_compute|]. split; [by vm_compute|].
  split; [by vm_compute|]. split; [by vm_compute|].
  intros (_ & Hlog & _). apply (f_equal List.length) in Hlog.
  vm_compute in Hlog. discriminate.
Qed.

(** ** The scenarios of the specification *)

(** A PTR record alone announces nothing; the SRV and TXT records that
    follow make one record, with the responder's address for host, and
    one online event. *)
Example scenario_mdns :
  let cfg := constructor ∅ in
  let c1 := run (H := storing_last_seen) cfg
              [MdnsResponse 997 "10.0.0.5" (take 1 kitchen_answers) []] in
  let c2 := run (H := storing_last_seen) cfg
              [MdnsResponse 997 "10.0.0.5" (take 1 kitchen_answers) [];
               MdnsResponse 997 "10.0.0.5" [] (drop 1 kitchen_answers)] in
  devices c1 = [] ∧ log c1 = []
  ∧ devices c2 = [kitchen]
  ∧ log c2 = [Emit device kitchen; Emit device_online kitchen].
Proof. repeat split; by vm_compute. Qed.

(** An SSDP response makes one record under the synthesized name and
    one online event. *)
Example scenario_ssdp :
  let c := run (H := storing_last_seen) (constructor ∅)
             [SsdpResponse 997 dial_response] in
  (Device.name <$> devices c)
  = [Js.Str "Chromecast-1111222233334444555566667777._googlecast._tcp.local"]
  ∧ (Device.uuid <$> devices c) = ["1111222233334444555566667777"]
  ∧ List.length (emitted device_online (log c)) = 1.
Proof. repeat split; by vm_compute. Qed.

(** ** Instances of the theorems *)





Lemma redelivery_changes_nothing_witness :
  let cfg := constructor ∅ in
  let answers := [PTR "_googlecast._tcp.local" kitchen_name] in
  let additionals :=
    [SRV kitchen_name "kitchen.local";
     TXT kitchen_name (TxtBuffer {[ "fn" := "Kitchen"; "d" := "Chromecast Ultra" ]})] in
  let c1 := state_of (onMdnsResponse (H := storing_last_seen) cfg 997 "10.0.0.5"
                        answers additionals initial) in
  let c2 := state_of (onMdnsResponse (H := storing_last_seen) cfg 1000 "10.0.0.5"
                        answers additionals c1) in
  strategy_is_string cfg ∧ touched 1000 c1 c2.
Proof.
  intros cfg answers additionals c1 c2.
  assert (strategy_is_string cfg) as Hstr by (by exists "rinfo").
  split; [done|].
  apply (proj1 (redelivery_changes_nothing (H := storing_last_seen))
           cfg "10.0.0.5" 997%Z 1000%Z "_googlecast._tcp.local" kitchen_name
           "kitchen.local"
           (TxtBuffer {[ "fn" := "Kitchen"; "d" := "Chromecast Ultra" ]})
           additionals answers additionals initial Hstr eq_refl).
  reflexivity.
Defined.

(** * Further properties of the client *)

(** ** The collector *)

(** X3: the records one run of the collector removes are stale; each is
    closed and then announced offline, in the order of removal, and the
    tick has no other effect: the registry keeps the other records in
    their order, and the staging table loses the keys that are the names
    of the removed records. *)
Theorem gc_tick_accounts cfg now c :
  ∃ evicted,
    Forall (λ d, stale cfg now d = true) evicted
    ∧ devices c ≡ₚ devices (gc_tick cfg now c) ++ evicted
    ∧ devices (gc_tick cfg now c) `sublist_of` devices c
    ∧ log (gc_tick cfg now c) = log c ++ eviction_effects evicted
    ∧ _devices (gc_tick cfg now c) = unstaged evicted (_devices c).
Proof.
  unfold gc_tick. generalize (List.length (devices c)) 0. intros n.
  revert c. induction n as [|n IH]; intros c k; simpl.
  { exists []. simpl. rewrite !app_nil_r. done. }
  destruct (devices c !! k) as [d|] eqn:Hk; [|apply IH].
  destruct (stale cfg now d) eqn:Hd.
  - rewrite gc_visit_stale by done.
    match goal with |- context [forEach_from n (S k) _ ?c1] =>
      destruct (IH c1 (S k)) as (ev & Hst & Hperm & Hsub & Hlog & Hdev) end.
    simpl in *. exists (d :: ev). repeat split.
    + by constructor.
    + etrans; [apply (delete_Permutation _ _ _ Hk)|].
      etrans; [apply Permutation_skip, Hperm|]. apply Permutation_middle.
    + etrans; [done|]. apply sublist_delete.
    + rewrite Hlog. unfold eviction_effects. simpl. by rewrite <- app_assoc.
    + done.
  - rewrite gc_visit_fresh by done. apply IH.
Qed.

(** ** What discovery keeps *)

Section discovery.

Context `{DeviceClass}.
Variable cfg : Config.

Lemma updateDevice_extends now u c :
  collected <$> devices c `prefix_of`
    collected <$> devices (state_of (_updateDevice now u c))
  ∧ log c `prefix_of` log (state_of (_updateDevice now u c)).
Proof.
  destruct (_devices c !! u) as [f|] eqn:Hf.
  - rewrite (updateDevice_returns _ _ _ _ Hf). simpl.
    destruct (find_device u (devices c)) as [[i o]|] eqn:E.
    + destruct (find_device_Some _ _ _ _ E) as [Hi Hu]. split.
      * rewrite list_fmap_insert, list_insert_id; [done|].
        by rewrite list_lookup_fmap, Hi.
      * by apply prefix_app_r.
    + split; [rewrite fmap_app|]; by apply prefix_app_r.
  - unfold _updateDevice. by rewrite Hf.
Qed.

(** X4: an mDNS or SSDP callback removes nothing: every record stays at
    its position with its identifier and with the property [last_seen]
    the collector reads (re-discovering a device does not change it), new
    records are appended, every staged identifier stays staged, and the
    effects so far are only added to. *)
Theorem discovery_keeps_records c i :
  discovery i →
  collected <$> devices c `prefix_of` collected <$> devices (step cfg c i)
  ∧ dom (_devices c) ⊆ dom (_devices (step cfg c i))
  ∧ log c `prefix_of` log (step cfg c i).
Proof.
  intros Hi.
  apply (step_preserves cfg
           (λ c', collected <$> devices c `prefix_of` collected <$> devices c'
                  ∧ dom (_devices c) ⊆ dom (_devices c')
                  ∧ log c `prefix_of` log c')).
  - intros now address answers additionals a c' u f _ _ (Hd & Hs & Hl) _.
    rewrite announce_if_ready_staged. simpl. split_and!.
    + rewrite announce_if_ready_cases.
      destruct (Fragment.announceable f); [|done].
      etrans; [done|]. apply (updateDevice_extends now u (stage u f c')).
    + rewrite dom_insert. set_solver.
    + rewrite announce_if_ready_cases.
      destruct (Fragment.announceable f); [|done].
      etrans; [done|]. apply (updateDevice_extends now u (stage u f c')).
  - intros now r c' d udn _ (Hd & Hs & Hl) _.
    rewrite updateDevice_staged. simpl. split_and!.
    + etrans; [done|]. apply (updateDevice_extends now _ (stage _ _ c')).
    + rewrite dom_insert. set_solver.
    + etrans; [done|]. apply (updateDevice_extends now _ (stage _ _ c')).
  - intros now d k c' ->. done.
  - done.
Qed.

End discovery.

(** ** Accounting of the events *)

Section accounting.

Context `{DeviceClass}.
Variable cfg : Config.

Lemma emitted_app e (l l' : list effect) :
  emitted e (l ++ l') = emitted e l ++ emitted e l'.
Proof. unfold emitted. apply omap_app. Qed.

Lemma closed_app (l l' : list effect) : closed (l ++ l') = closed l ++ closed l'.
Proof. unfold closed. apply omap_app. Qed.

Lemma updateDevice_balanced now u c :
  balanced c → balanced (state_of (_updateDevice now u c)).
Proof.
  intros (H1 & H2 & H3). destruct (_devices c !! u) as [f|] eqn:Hf.
  - rewrite (updateDevice_returns _ _ _ _ Hf). unfold balanced. simpl.
    rewrite !emitted_app, closed_app, !length_app.
    destruct (find_device u (devices c)) as [[i o]|] eqn:E.
    + rewrite length_insert. destruct (differs f o); simpl.
      * rewrite !app_nil_r. split_and!; [lia|lia|done].
      * rewrite !app_nil_r. split_and!; [lia|lia|done].
    + rewrite length_app. simpl. rewrite ?app_nil_r. split_and!; [lia|lia|done].
  - unfold _updateDevice. by rewrite Hf.
Qed.

Lemma step_balanced c i : balanced c → balanced (step cfg c i).
Proof.
  apply (step_preserves cfg balanced).
  - intros now address answers additionals a c' u f _ _ Hc' _.
    rewrite announce_if_ready_cases.
    destruct (Fragment.announceable f); [|done].
    by apply updateDevice_balanced.
  - intros now r c' d udn _ Hc' _. by apply updateDevice_balanced.
  - intros now d k c' _ (H1 & H2 & H3) Hk _. unfold balanced. simpl.
    rewrite !emitted_app, closed_app, !length_app, H3. simpl.
    rewrite ?app_nil_r. apply lookup_lt_Some in Hk.
    rewrite length_delete by (by apply lookup_lt_is_Some_2).
    split_and!; [lia|lia|done].
Qed.

(** X5: in every state the client reaches, the online events emitted so
    far are as many as the records in the registry plus the offline
    events; the [device] events are as many as the online and updated
    events together; and [close] has been called on exactly the records
    announced offline, in that order. *)
Theorem events_balance (history : list input) :
  let c := run cfg history in
  List.length (emitted device_online (log c))
  = List.length (devices c) + List.length (emitted device_offline (log c))
  ∧ List.length (emitted device (log c))
    = List.length (emitted device_online (log c))
      + List.length (emitted device_updated (log c))
  ∧ closed (log c) = emitted device_offline (log c).
Proof.
  simpl. induction history as [|i history IH] using rev_ind; [done|].
  rewrite run_snoc. by apply step_balanced.
Qed.

End accounting.

(** ** Types of the fields of a record *)

Section types.

Context `{DeviceClass}.
Variable cfg : Config.







End types.

(** ** The registry as a mirror of the staging table *)

Section mirror.

Context `{DeviceClass}.
Variable cfg : Config.




End mirror.

(** ** What the listeners drop, and when they throw *)

Section dropping.

Context `{DeviceClass}.
Variable cfg : Config.




(** X10: with a string for strategy, which the constructor's default is,
    the mDNS listener returns on every response in every state. *)
Theorem onMdnsResponse_returns now address (answers additionals : list answer) c :
  strategy_is_string cfg →
  ∃ c', onMdnsResponse cfg now address answers additionals c = Normal c'.
Proof.
  intros Hstr. unfold onMdnsResponse.
  destruct (forEach_answer_returns cfg address Hstr now answers c) as [c1 ->].
  apply (forEach_answer_returns cfg address Hstr).
Qed.

End dropping.

Section ssdp_dropping.

Context `{DeviceClass}.







End ssdp_dropping.

(** ** More on the identifier normalizer *)

Lemma string_app_cons c (a b : string) :
  (String c a ++ b)%string = String c (a ++ b)%string.
Proof. done. Qed.

Lemma string_length_app (a b : string) :
  String.length (a ++ b)%string = String.length a + String.length b.
Proof.
  induction a as [|c a IH]; [done|]. rewrite string_app_cons. simpl.
  by rewrite IH.
Qed.

Lemma string_app_nil_r (a : string) : (a ++ "")%string = a.
Proof. induction a as [|c a IH]; [done|]. by rewrite string_app_cons, IH. Qed.

Lemma string_app_assoc (a b c : string) :
  (a ++ (b ++ c))%string = ((a ++ b) ++ c)%string.
Proof. induction a as [|x a IH]; [done|]. by rewrite !string_app_cons, IH. Qed.

Lemma hyphens_app (a b : string) :
  hyphens (a ++ b)%string = hyphens a + hyphens b.
Proof. induction a as [|c a IH]; simpl; [done|]. rewrite IH. lia. Qed.

Lemma hyphens_all_hex s : Re.all_hex s = true → hyphens s = 0.
Proof.
  induction s as [|c s IH]; simpl; [done|].
  intros [Hc Hs]%andb_true_iff. by rewrite (is_hex_not_hyphen _ Hc), IH.
Qed.

Lemma hyphens_remove_hyphens s : hyphens (Re.remove_hyphens s) = 0.
Proof.
  induction s as [|c s IH]; simpl; [done|].
  destruct (Ascii.eqb c "-"%char) eqn:E; simpl; [done|]. by rewrite E.
Qed.

Lemma match_here_prefix p s m :
  Re.match_here p s = Some m → ∃ rest, s = (m ++ rest)%string.
Proof.
  revert s m. induction p as [|a p IH]; intros s m; simpl.
  - intros [= <-]. by exists s.
  - destruct s as [|c s]; [done|]. destruct (Re.atom_matches a c); [|done].
    destruct (Re.match_here p s) as [m'|] eqn:E; [|done].
    intros [= <-]. destruct (IH _ _ E) as [rest ->]. by exists rest.
Qed.

Lemma match_here_app p q s m :
  Re.match_here (p ++ q) s = Some m →
  ∃ m1 m2 rest, m = (m1 ++ m2)%string ∧ s = (m1 ++ rest)%string
                ∧ Re.match_here p s = Some m1
                ∧ Re.match_here q rest = Some m2.
Proof.
  revert s m. induction p as [|a p IH]; intros s m; simpl.
  - intros Hq. by exists ""%string, m, s.
  - destruct s as [|c s]; [done|]. destruct (Re.atom_matches a c); [|done].
    destruct (Re.match_here (p ++ q) s) as [m'|] eqn:E; [|done].
    intros [= <-]. destruct (IH _ _ E) as (m1 & m2 & rest & -> & -> & H1 & H2).
    exists (String c m1), m2, rest. rewrite H1. done.
Qed.

Lemma match_here_hyphen s m :
  Re.match_here [Re.Lit "-"%char] s = Some m → m = "-"%string.
Proof.
  destruct s as [|c s]; [done|]. unfold Re.match_here, Re.atom_matches.
  destruct (Ascii.eqb_spec "-"%char c) as [<-|]; [|done]. by intros [= <-].
Qed.

Lemma exec_substring p s m :
  Re.exec p s = Some m → ∃ pre post, s = (pre ++ m ++ post)%string.
Proof.
  induction s as [|c s IH]; simpl.
  - destruct (Re.match_here p "") as [m'|] eqn:E; [|done]. intros [= <-].
    apply match_here_prefix in E as [rest E]. by exists ""%string, rest.
  - destruct (Re.match_here p (String c s)) as [m'|] eqn:E.
    + intros [= <-]. apply match_here_prefix in E as [rest E].
      by exists ""%string, rest.
    + intros (pre & post & ->)%IH. by exists (String c pre), post.
Qed.

(** The shape of a match of [UUID_REGEX]. *)
Lemma match_here_UUID_REGEX s m :
  Re.match_here Re.UUID_REGEX s = Some m →
  ∃ a b c d e,
    m = (a ++ String "-"%char (b ++ String "-"%char (c ++ String "-"%char
           (d ++ String "-"%char e))))%string
    ∧ (Re.all_hex a = true ∧ String.length a = 8)
    ∧ (Re.all_hex b = true ∧ String.length b = 4)
    ∧ (Re.all_hex c = true ∧ String.length c = 4)
    ∧ (Re.all_hex d = true ∧ String.length d = 4)
    ∧ (Re.all_hex e = true ∧ String.length e = 12).
Proof.
  unfold Re.UUID_REGEX. intros Hm.
  apply match_here_app in Hm as (a & m1 & s1 & -> & _ & Ha & Hm).
  apply match_here_app in Hm as (h1 & m2 & s2 & -> & _ & ->%match_here_hyphen & Hm).
  apply match_here_app in Hm as (b & m3 & s3 & -> & _ & Hb & Hm).
  apply match_here_app in Hm as (h2 & m4 & s4 & -> & _ & ->%match_here_hyphen & Hm).
  apply match_here_app in Hm as (c & m5 & s5 & -> & _ & Hc & Hm).
  apply match_here_app in Hm as (h3 & m6 & s6 & -> & _ & ->%match_here_hyphen & Hm).
  apply match_here_app in Hm as (d & m7 & s7 & -> & _ & Hd & Hm).
  apply match_here_app in Hm as (h4 & e & s8 & -> & _ & ->%match_here_hyphen & He).
  exists a, b, c, d, e. split; [done|].
  split_and!; by eapply match_here_hexes.
Qed.

Lemma exec_UUID_REGEX_hyphens s m :
  Re.exec Re.UUID_REGEX s = Some m → 4 ≤ hyphens s.
Proof.
  intros He. destruct (exec_substring _ _ _ He) as (pre & post & ->).
  apply exec_match_here in He as [s' Hm].
  apply match_here_UUID_REGEX in Hm
    as (a & b & c & d & e & -> & [Ha _] & [Hb _] & [Hc _] & [Hd _] & [He _]).
  repeat first [rewrite hyphens_app | progress simpl]. lia.
Qed.

Lemma exec_UUID_REGEX_few_hyphens s :
  hyphens s < 4 → Re.exec Re.UUID_REGEX s = None.
Proof.
  intros Hlt. destruct (Re.exec Re.UUID_REGEX s) as [m|] eqn:E; [|done].
  apply exec_UUID_REGEX_hyphens in E. lia.
Qed.

Lemma match_here_hexes_short n x y :
  String.length x < n →
  Re.match_here (Re.hexes n) (x ++ String "-"%char y)%string = None.
Proof.
  unfold Re.hexes. revert n. induction x as [|c x IH]; intros n Hn; simpl in *.
  - destruct n; [lia|]. done.
  - destruct n; [lia|]. simpl. destruct (Re.is_hex c); [|done].
    rewrite IH by lia. done.
Qed.

Lemma exec_skip p c s :
  Re.match_here p (String c s) = None → Re.exec p (String c s) = Re.exec p s.
Proof.
  intros Hn.
  change (Re.exec p (String c s))
    with (match Re.match_here p (String c s) with
          | Some m => Some m
          | None => Re.exec p s
          end).
  by rewrite Hn.
Qed.

Lemma exec_hexes_hyphen n x y :
  String.length x < n →
  Re.exec (Re.hexes n) (x ++ String "-"%char y)%string = Re.exec (Re.hexes n) y.
Proof.
  induction x as [|c x IH]; intros Hn.
  - apply exec_skip. by apply (match_here_hexes_short n ""%string y).
  - change (String c x ++ String "-"%char y)%string
      with (String c (x ++ String "-"%char y)%string).
    rewrite exec_skip; [apply IH; simpl in Hn; lia|].
    by apply (match_here_hexes_short n (String c x) y).
Qed.

Lemma exec_hexes_short n s :
  String.length s < n → Re.exec (Re.hexes n) s = None.
Proof.
  intros Hn. destruct (Re.exec (Re.hexes n) s) as [m|] eqn:E; [|done].
  destruct (exec_substring _ _ _ E) as (pre & post & ->).
  apply exec_match_here in E as [s' Hm].
  apply match_here_hexes in Hm as [_ Hlen].
  rewrite !string_length_app in Hn. lia.
Qed.

Lemma match_here_hexes_all m rest :
  Re.all_hex m = true →
  Re.match_here (Re.hexes (String.length m)) (m ++ rest)%string = Some m.
Proof.
  unfold Re.hexes. induction m as [|c m IH]; simpl; [done|].
  intros [Hc Hm]%andb_true_iff. by rewrite Hc, IH.
Qed.

Lemma exec_match p s m :
  Re.match_here p s = Some m → Re.exec p s = Some m.
Proof. intros Hm. destruct s; simpl in *; by rewrite Hm. Qed.

(** A run of 32 hexadecimal digits is its own identifier. *)
Lemma parseUUID_digits m :
  Re.all_hex m = true → String.length m = 32 → parseUUID m = m.
Proof.
  intros Hm Hlen. unfold parseUUID.
  rewrite exec_UUID_REGEX_few_hyphens by (rewrite hyphens_all_hex by done; lia).
  unfold Re.UUID_REGEX_NO_HYPENS. rewrite <- Hlen.
  rewrite <- (string_app_nil_r m) at 2.
  by rewrite (exec_match _ _ _ (match_here_hexes_all m ""%string Hm)).
Qed.

Lemma replace_first_hyphen_app a rest :
  Re.all_hex a = true →
  Re.replace_first_hyphen (a ++ String "-"%char rest)%string = (a ++ rest)%string.
Proof.
  induction a as [|c a IH]; simpl; [done|].
  intros [Hc Ha]%andb_true_iff. by rewrite (is_hex_not_hyphen _ Hc), IH.
Qed.

(** X13: normalizing is idempotent: the identifier [parseUUID] returns is
    the identifier of itself. *)
Theorem parseUUID_idempotent (s : string) : parseUUID (parseUUID s) = parseUUID s.
Proof.
  unfold parseUUID at 2 3.
  destruct (Re.exec Re.UUID_REGEX s) as [m|] eqn:E1.
  - apply exec_match_here in E1 as [s' Hm].
    apply match_here_UUID_REGEX in Hm
      as (a & b & c & d & e & -> & [Ha La] & [Hb Lb] & [Hc Lc] & [Hd Ld] & [He Le]).
    rewrite replace_first_hyphen_app by done.
    set (r := (a ++ b ++ String "-"%char (c ++ String "-"%char
                 (d ++ String "-"%char e)))%string).
    unfold parseUUID.
    rewrite exec_UUID_REGEX_few_hyphens.
    2:{ unfold r. repeat first [rewrite hyphens_app | progress simpl].
        rewrite !hyphens_all_hex by done. lia. }
    unfold Re.UUID_REGEX_NO_HYPENS, r.
    rewrite string_app_assoc.
    rewrite (exec_hexes_hyphen 32 (a ++ b)%string)
      by (rewrite string_length_app; lia).
    rewrite (exec_hexes_hyphen 32 c) by lia.
    rewrite (exec_hexes_hyphen 32 d) by lia.
    rewrite exec_hexes_short by lia. done.
  - destruct (Re.exec Re.UUID_REGEX_NO_HYPENS s) as [m|] eqn:E2.
    + apply exec_match_here in E2 as [s' Hm].
      apply match_here_hexes in Hm as [H1 H2]. by apply parseUUID_digits.
    + unfold parseUUID. by rewrite E1, E2.
Qed.

Lemma remove_uuid_colon_cons c s :
  c ≠ "u"%char →
  Re.remove_uuid_colon (String c s) = String c (Re.remove_uuid_colon s).
Proof.
  intros Hc. destruct c as [[] [] [] [] [] [] [] []]; try reflexivity.
  by destruct Hc.
Qed.

Lemma remove_uuid_colon_hex s :
  Re.all_hex (Re.remove_hyphens s) = true → Re.remove_uuid_colon s = s.
Proof.
  induction s as [|c s IH]; [done|]. intros Hs. simpl in Hs.
  destruct (Ascii.eqb_spec c "-"%char) as [->|Hc].
  - rewrite remove_uuid_colon_cons by done. by rewrite IH.
  - simpl in Hs. apply andb_true_iff in Hs as [Hx Hs].
    rewrite remove_uuid_colon_cons, IH; [done|done|].
    intros ->. vm_compute in Hx. discriminate.
Qed.

Lemma remove_hyphens_id s : hyphens s = 0 → Re.remove_hyphens s = s.
Proof.
  induction s as [|c s IH]; simpl; [done|].
  destruct (Ascii.eqb c "-"%char); [done|]. simpl. intros Hs. by rewrite IH.
Qed.

Lemma hyphens_substring (pre m post : string) :
  hyphens (pre ++ m ++ post)%string = 0 → hyphens m = 0.
Proof. rewrite !hyphens_app. lia. Qed.

(** The generated name of 32 hexadecimal digits has them for identifier. *)
Lemma parseUUID_generated_name x :
  Re.all_hex x = true → String.length x = 32 →
  parseUUID ("Chromecast-" ++ x ++ "._googlecast._tcp.local")%string = x.
Proof.
  intros Hx Hlen. unfold parseUUID.
  rewrite exec_UUID_REGEX_few_hyphens.
  2:{ rewrite !hyphens_app, (hyphens_all_hex x) by done. simpl. lia. }
  unfold Re.UUID_REGEX_NO_HYPENS.
  change ("Chromecast-" ++ x ++ "._googlecast._tcp.local")%string
    with ("Chromecast" ++ String "-"%char (x ++ "._googlecast._tcp.local"))%string.
  rewrite exec_hexes_hyphen by (simpl; lia).
  rewrite <- Hlen.
  by rewrite (exec_match _ _ _ (match_here_hexes_all x _ Hx)).
Qed.

(** X14: the identifier of a device found by SSDP has no hyphen, whatever
    the UDN of its description. *)
Theorem ssdp_uuid_no_hyphen (udn : string) : hyphens (ssdp_uuid udn) = 0.
Proof.
  unfold ssdp_uuid, strip_udn, parseUUID.
  pose proof (hyphens_remove_hyphens (Re.remove_uuid_colon udn)) as Hx.
  rewrite exec_UUID_REGEX_few_hyphens by lia.
  destruct (Re.exec Re.UUID_REGEX_NO_HYPENS _) as [m|] eqn:E; [|done].
  apply exec_substring in E as (pre & post & E). rewrite E in Hx.
  by apply hyphens_substring in Hx.
Qed.

(** X15: for a UDN made of [uuid:] and a UUID, the identifier SSDP keys
    the device by is the UUID's 32 hexadecimal digits as they are
    written, and the name generated for the device has the same
    identifier, which is the key under which the mDNS handler looks up
    the fragment for a record of that name. *)
Theorem ssdp_uuid_of_uuid (h : string) :
  is_uuid h →
  ssdp_uuid ("uuid:" ++ h) = Re.remove_hyphens h
  ∧ Re.all_hex (ssdp_uuid ("uuid:" ++ h)) = true
  ∧ String.length (ssdp_uuid ("uuid:" ++ h)) = 32
  ∧ parseUUID (synthesized_name ("uuid:" ++ h)) = ssdp_uuid ("uuid:" ++ h).
Proof.
  intros Hh.
  destruct (match_here_hyphenated _ hyphenated_UUID_REGEX _ _ Hh) as [Hhex Hlen].
  change (hex_positions Re.UUID_REGEX) with 32 in Hlen.
  assert (strip_udn ("uuid:" ++ h) = Re.remove_hyphens h) as Hstrip.
  { rewrite strip_udn_prefix. unfold strip_udn.
    by rewrite remove_uuid_colon_hex. }
  assert (ssdp_uuid ("uuid:" ++ h) = Re.remove_hyphens h) as Hu.
  { unfold ssdp_uuid. rewrite Hstrip. by apply parseUUID_digits. }
  rewrite Hu. split_and!; try done.
  unfold synthesized_name. rewrite Hstrip.
  by apply parseUUID_generated_name.
Qed.

(** ** TXT data *)

(** X16: when a TXT record carries an array of buffers, the value of a
    key is the one in the last buffer that has the key; an array of one
    buffer decodes as the buffer alone, and an empty array to no key. *)
Theorem decode_txt_last_wins (items : list (gmap string string))
    (item : gmap string string) (key : string) :
  decode_txt (TxtArray (items ++ [item])) !! key
  = match item !! key with
    | Some v => Some v
    | None => decode_txt (TxtArray items) !! key
    end
  ∧ decode_txt (TxtArray [item]) = decode_txt (TxtBuffer item)
  ∧ decode_txt (TxtArray []) = ∅.
Proof.
  split_and!.
  - simpl. rewrite foldl_app. simpl. rewrite lookup_union.
    destruct (item !! key) as [v|].
    + by rewrite union_Some_l.
    + by rewrite (left_id_L None _).
  - simpl. by rewrite (right_id_L ∅ _).
  - done.
Qed.

(** ** Sockets, timers and the public methods *)

Section lifecycle.

Context `{DeviceClass}.

Lemma constructor_handles_installed opts :
  installed (constructor_handles opts)
  = (enabled (constructor opts) "mdns_enabled",
     enabled (constructor opts) "ssdp_enabled",
     if gc_enabled (constructor opts)
     then opt_seconds (opts !! "gc_interval") else None,
     if opt_positive (opts !! "update_interval")
     then opt_seconds (opts !! "update_interval") else None).
Proof.
  unfold constructor_handles, gc_enabled.
  change (options (constructor opts)) with opts.
  destruct (enabled _ "mdns_enabled"), (enabled _ "ssdp_enabled"),
    (opt_positive (opts !! "gc_interval") && opt_positive (opts !! "gc_threshold")),
    (opt_positive (opts !! "update_interval")); reflexivity.
Qed.

Lemma constructor_handles_sent opts :
  sent (constructor_handles opts) = queries opts.
Proof.
  unfold constructor_handles, queries.
  destruct (enabled _ "mdns_enabled"), (enabled _ "ssdp_enabled"),
    (opt_positive (opts !! "gc_interval") && opt_positive (opts !! "gc_threshold")),
    (opt_positive (opts !! "update_interval")); reflexivity.
Qed.

Lemma update_installed h : installed (update h) = installed h.
Proof.
  unfold update, _triggerMDNS, _triggerSSDP, installed.
  by destruct (_mdns h) eqn:E1, (_ssdp h) eqn:E2; simpl; rewrite ?E1, ?E2.
Qed.

Lemma update_sent h :
  sent (update h)
  = sent h
    ++ (if _mdns h then [MdnsQuery "_googlecast._tcp.local" "PTR"] else [])
    ++ (if _ssdp h then [SsdpSearch SSDP_DEVICE_TYPE] else []).
Proof.
  unfold update, _triggerMDNS, _triggerSSDP.
  destruct (_mdns h) eqn:E1, (_ssdp h) eqn:E2; simpl; rewrite ?E1, ?E2; simpl;
    rewrite ?app_nil_r, <- ?app_assoc; done.
Qed.


Lemma live_snoc opts os o :
  live opts (os ++ [o]) = react (constructor opts) (live opts os) o.
Proof. unfold live. by rewrite foldl_app. Qed.





End lifecycle.

Section shutdown.

Context `{DeviceClass}.

Lemma destroy_installed h : installed (destroy h) = (false, false, None, None).
Proof. unfold destroy, installed. simpl. by destruct (_mdns h), (_ssdp h). Qed.

Lemma closed_update h :
  installed h = (false, false, None, None) → update h = h.
Proof.
  unfold installed, update, _triggerMDNS, _triggerSSDP.
  intros [= Hm Hs _ _]. by rewrite Hm, Hs.
Qed.

Lemma closed_destroy h :
  installed h = (false, false, None, None) → destroy h = h.
Proof.
  unfold installed, destroy. intros [= Hm Hs Hg Hu]. simpl.
  rewrite Hm, Hs. destruct h. simpl in *. by subst.
Qed.

Lemma closed_react cfg x o :
  installed (handles x) = (false, false, None, None) → react cfg x o = x.
Proof.
  intros Hx. pose proof Hx as [= Hm Hs Hg Hu]. destruct x as [c h].
  simpl in *.
  destruct o as [[now address answers additionals|now r|now]| | |]; simpl;
    rewrite ?Hm, ?Hs, ?Hg, ?Hu; try done.
  - by rewrite closed_update.
  - by rewrite closed_destroy.
Qed.

(** X19: [destroy()] is final and leaves the registry as it is: it
    closes no record and emits nothing, and afterwards no response that
    arrives, no tick of either interval and no call of [update()] or
    [destroy()] changes the registry state, the sockets and timers, or
    sends anything to a transport.  (A response is an occurrence together
    with the outcome of its description fetch: a fetch still under way
    when [destroy()] is called is not among the occurrences.) *)
Theorem destroy_is_final cfg (x : Instance) (os : list occurrence) :
  state (react cfg x CallDestroy) = state x
  ∧ foldl (react cfg) (react cfg x CallDestroy) os = react cfg x CallDestroy.
Proof.
  split; [done|].
  assert (installed (handles (react cfg x CallDestroy))
          = (false, false, None, None)) as Hd by apply destroy_installed.
  revert Hd. generalize (react cfg x CallDestroy). intros y Hy.
  induction os as [|o os IH]; simpl; [done|].
  by rewrite closed_react.
Qed.

Lemma update_keeps_closed t h :
  opened t h = false →
  Forall (λ x, call_transport x ≠ t) (sent h) →
  opened t (update h) = false
  ∧ Forall (λ x, call_transport x ≠ t) (sent (update h)).
Proof.
  intros Ht Hsent. rewrite update_sent. split.
  - pose proof (update_installed h) as [= Hm Hs _ _].
    destruct t; simpl in *; congruence.
  - rewrite !Forall_app. split_and!; [done| |].
    + destruct t; simpl in Ht; rewrite ?Ht; [done|].
      destruct (_mdns h); by repeat constructor.
    + destruct t; simpl in Ht; rewrite ?Ht; [|done].
      destruct (_ssdp h); by repeat constructor.
Qed.

Lemma destroy_keeps_closed t h :
  opened t h = false →
  Forall (λ x, call_transport x ≠ t) (sent h) →
  opened t (destroy h) = false
  ∧ Forall (λ x, call_transport x ≠ t) (sent (destroy h)).
Proof.
  intros Ht Hsent. split.
  - pose proof (destroy_installed h) as [= Hm Hs _ _].
    destruct t; simpl in *; congruence.
  - unfold destroy. simpl.
    destruct t; simpl in Ht; rewrite Ht; simpl.
    + destruct (_ssdp h); simpl; [|done].
      apply Forall_app. split; [done|]. by repeat constructor.
    + destruct (_mdns h); simpl; rewrite ?Ht; simpl; [|done].
      apply Forall_app. split; [done|]. by repeat constructor.
Qed.

(** X20: a transport the options switch off is never opened and never
    called: with [mdns_enabled] (or [ssdp_enabled]) present and falsy, no
    occurrence, [update()] included, creates the socket or sends it a
    query. *)
Theorem disabled_transport_stays_closed opts (t : transport)
    (os : list occurrence) :
  enabled (constructor opts) (option_key t) = false →
  opened t (handles (live opts os)) = false
  ∧ Forall (λ x, call_transport x ≠ t) (sent (handles (live opts os))).
Proof.
  intros Hoff. induction os as [|o os IH] using rev_ind.
  - pose proof (constructor_handles_installed opts) as [= Hm Hs _ _].
    change (handles (live opts [])) with (constructor_handles opts).
    rewrite constructor_handles_sent. unfold queries. split.
    + destruct t; simpl in *; congruence.
    + destruct t; simpl in Hoff; rewrite Hoff; simpl.
      * destruct (enabled (constructor opts) "ssdp_enabled");
          by repeat constructor.
      * destruct (enabled (constructor opts) "mdns_enabled"); simpl;
          by repeat constructor.
  - rewrite live_snoc. revert IH. generalize (live opts os). intros x [Ho Hsent].
    destruct o as [[now address answers additionals|now r|now]| | |];
      unfold react.
    + by destruct (_mdns _).
    + by destruct (_ssdp _).
    + by destruct (gcIntervalRef _).
    + destruct (updateIntervalRef _); [|done]. by apply update_keeps_closed.
    + by apply update_keeps_closed.
    + by apply destroy_keeps_closed.
Qed.

End shutdown.

(** ** The property the collector reads *)

Section last_seen.

Context `{DeviceClass}.
Variable cfg : Config.

Lemma gc_tick_all_fresh now c :
  Forall (λ d, stale cfg now d = false) (devices c) → gc_tick cfg now c = c.
Proof.
  intros Hall. unfold gc_tick.
  apply (forEach_from_preserves (λ c', c' = c)); [|done].
  intros d k c' -> Hk. apply gc_visit_fresh.
  rewrite Forall_forall in Hall. apply Hall. by eapply list_elem_of_lookup_2.
Qed.

Lemma stale_last_seen now d : stale cfg now d = true → is_Some (Device.last_seen d).
Proof. unfold stale. destruct (Device.last_seen d); [eauto|done]. Qed.

(** X21: the collector tests the property [last_seen] of a record while
    reconciliation writes [lastSeen]: when the [Device] class leaves
    [last_seen] undefined, no record of any reachable state has it, and
    the collector, whatever its interval and threshold and however old the
    records, evicts nothing and announces no device offline. *)
Theorem collector_needs_last_seen (history : list input) :
  (∀ lastSeen, new_last_seen lastSeen = None) →
  Forall (λ d, Device.last_seen d = None) (devices (run cfg history))
  ∧ emitted device_offline (log (run cfg history)) = []
  ∧ ∀ now, gc_tick cfg now (run cfg history) = run cfg history.
Proof.
  intros Hclass.
  assert (Forall (λ d, Device.last_seen d = None) (devices (run cfg history))
          ∧ emitted device_offline (log (run cfg history)) = []) as [Hd Hl].
  { induction history as [|i history IH] using rev_ind.
    { split; [by constructor|done]. }
    rewrite run_snoc. revert IH. generalize (run cfg history). intros c.
    apply (step_preserves cfg
             (λ c, Forall (λ d, Device.last_seen d = None) (devices c)
                   ∧ emitted device_offline (log c) = [])).
    - intros now address answers additionals a c' u f _ _ [Hd Hl] _.
      rewrite announce_if_ready_cases.
      destruct (Fragment.announceable f); [|done].
      rewrite (updateDevice_returns now u (stage u f c') f)
        by (simpl; apply lookup_insert_eq).
      simpl. split.
      + destruct (find_device u (devices c')) as [[k o]|] eqn:E.
        * destruct (find_device_Some _ _ _ _ E) as [Hk _].
          apply Forall_insert; [done|]. simpl.
          rewrite Forall_forall in Hd. apply Hd.
          by eapply list_elem_of_lookup_2.
        * apply Forall_app. split; [done|]. constructor; [|done]. apply Hclass.
      + rewrite emitted_app, Hl. simpl.
        destruct (find_device u (devices c')) as [[k o]|]; [|done].
        by destruct (differs f o).
    - intros now r c' d udn _ [Hd Hl] _.
      rewrite (updateDevice_returns now _ (stage _ _ c') _)
        by (simpl; apply lookup_insert_eq).
      simpl. split.
      + destruct (find_device _ (devices c')) as [[k o]|] eqn:E.
        * destruct (find_device_Some _ _ _ _ E) as [Hk _].
          apply Forall_insert; [done|]. simpl.
          rewrite Forall_forall in Hd. apply Hd.
          by eapply list_elem_of_lookup_2.
        * apply Forall_app. split; [done|]. constructor; [|done]. apply Hclass.
      + rewrite emitted_app, Hl. simpl.
        destruct (find_device _ (devices c')) as [[k o]|]; [|done].
        by destruct (differs _ o).
    - intros now d k c' _ [Hd Hl] Hk Hst. exfalso.
      apply stale_last_seen in Hst as [t Ht].
      rewrite Forall_forall in Hd.
      rewrite (Hd d) in Ht; [done|]. by eapply list_elem_of_lookup_2. }
  split_and!; [done|done|]. intros now. apply gc_tick_all_fresh.
  eapply Forall_impl; [done|]. intros d Hnone. unfold stale. by rewrite Hnone.
Qed.

End last_seen.

(** ** Announcements *)

Section announcements.

Context `{DeviceClass}.
Variable cfg : Config.





End announcements.

(** ** Instances of the further theorems *)


Lemma gc_tick_all_stale_witness :
  devices (gc_tick (constructor gc_options) 1000
             {| _devices := ∅; devices := [kitchen; bedroom]; log := [] |})
  = [bedroom].
Proof.
  apply (gc_tick_all_stale (constructor gc_options) 1000
           {| _devices := ∅; devices := [kitchen; bedroom]; log := [] |}).
  simpl. repeat constructor.
Defined.

Lemma discovery_keeps_records_witness :
  let i := MdnsResponse 997 "10.0.0.5" kitchen_answers [] in
  let c := step (H := storing_last_seen) (constructor ∅) initial i in
  collected <$> devices initial `prefix_of` collected <$> devices c
  ∧ dom (_devices initial) ⊆ dom (_devices c)
  ∧ log initial `prefix_of` log c.
Proof.
  exact (discovery_keeps_records (H := storing_last_seen) (constructor ∅) initial
           (MdnsResponse 997 "10.0.0.5" kitchen_answers []) I).
Defined.



Lemma onMdnsResponse_returns_witness :
  ∃ c', onMdnsResponse (H := storing_last_seen) (constructor ∅) 1000 "10.0.0.5"
          kitchen_answers [] initial = Normal c'.
Proof.
  apply (onMdnsResponse_returns (H := storing_last_seen) (constructor ∅)).
  by exists "rinfo".
Defined.


Lemma ssdp_uuid_of_uuid_witness :
  ssdp_uuid "uuid:01234567-89ab-cdef-0123-456789abcdef" = kitchen_uuid
  ∧ parseUUID (synthesized_name "uuid:01234567-89ab-cdef-0123-456789abcdef")
    = kitchen_uuid.
Proof.
  destruct (ssdp_uuid_of_uuid "01234567-89ab-cdef-0123-456789abcdef" eq_refl)
    as (H1 & _ & _ & H2).
  split; [exact H1|exact (eq_trans H2 H1)].
Defined.



Lemma disabled_transport_stays_closed_witness :
  opened OverMdns
    (handles (live (H := storing_last_seen) ssdp_only_options kitchen_occurrences))
  = false.
Proof.
  exact (proj1 (disabled_transport_stays_closed (H := storing_last_seen)
                  ssdp_only_options OverMdns kitchen_occurrences eq_refl)).
Defined.

Lemma collector_needs_last_seen_witness :
  let c := run (H := forgetting_last_seen) (constructor gc_options)
             [MdnsResponse 997 "10.0.0.5" kitchen_answers []] in
  gc_tick (constructor gc_options) 100000 c = c.
Proof.
  intros c.
  apply (collector_needs_last_seen (H := forgetting_last_seen)
           (constructor gc_options)
           [MdnsResponse 997 "10.0.0.5" kitchen_answers []]).
  reflexivity.
Defined.



